(** * VeilBreakers data converter: the value-language parser of
      [convert_godot_data.py], embedded and verified.

    The development follows the Python source function by function:
    [parse_tres_file], [parse_value], [parse_array], [parse_dict] and
    [convert_path].  Python strings are sequences of code points; here a
    character is an [ascii], read as a code point below 256, and a string is
    a list of characters.  Python integers are unbounded ([Z]).  A Python
    float obtained from a decimal literal is represented by the exact
    rational value of that literal in lowest terms ([Q] through [Qred]);
    rounding to binary64 is not modelled.  Exceptions are explicit: every
    operation that can raise returns a [res].  Two limits of the
    interpreter are left out: the bound on the recursion depth and the
    bound CPython puts on the number of digits [int] converts. *)

From Stdlib Require Import Ascii String.
From Stdlib Require Import List ZArith QArith Bool Lia Arith.
Import ListNotations.

Open Scope string_scope.
Open Scope list_scope.
Open Scope nat_scope.

(* ================================================================== *)
(** * Strings *)
(* ================================================================== *)

Definition str := list ascii.

(** String literals of the source are written as Rocq literals and read as
    character lists. *)
Definition lit (x : string) : str := list_ascii_of_string x.
Coercion lit : string >-> str.

(** The double quote, code point 34. *)
Definition dquote : ascii := ascii_of_nat 34.
(** The backslash, code point 92. *)
Definition backslash : ascii := ascii_of_nat 92.
(** The line feed, code point 10. *)
Definition newline : ascii := ascii_of_nat 10.

Definition code (c : ascii) : N := N_of_ascii c.

Definition between (lo hi : N) (c : ascii) : bool :=
  (N.leb lo (code c)) && (N.leb (code c) hi).

(** [str.isspace] on one code point, which is also the class [\s] of a
    Unicode pattern: TAB..CR, FS..US, space, NEL and NBSP below 256. *)
Definition isspace (c : ascii) : bool :=
  between 9 13 c || between 28 32 c || between 133 133 c || between 160 160 c.

(** The class [\d] of a Unicode pattern: the decimal digits; below 256
    these are 0..9 only. *)
Definition isdigit (c : ascii) : bool := between 48 57 c.

(** The class [\w] of a Unicode pattern: alphanumeric code points and the
    underscore.  Below 256 the alphanumerics are the ASCII letters and
    digits, the ordinal indicators, the micro sign, the superscript digits,
    the vulgar fractions and the Latin-1 letters. *)
Definition isword (c : ascii) : bool :=
  between 48 57 c || between 65 90 c || between 97 122 c || between 95 95 c
  || between 170 170 c || between 178 179 c || between 181 181 c
  || between 185 186 c || between 188 190 c
  || between 192 214 c || between 216 246 c || between 248 255 c.

(** [.] without DOTALL: anything but a line feed. *)
Definition isdot (c : ascii) : bool := negb (Ascii.eqb c newline).

(** [.] with DOTALL. *)
Definition isany (c : ascii) : bool := true.

(** [[\d.]] *)
Definition iscolorchar (c : ascii) : bool := isdigit c || Ascii.eqb c ".".

(** [[\d.-]] *)
Definition isvecchar (c : ascii) : bool :=
  isdigit c || Ascii.eqb c "." || Ascii.eqb c "-".

Fixpoint str_eqb (a b : str) : bool :=
  match a, b with
  | [], [] => true
  | x :: a', y :: b' => Ascii.eqb x y && str_eqb a' b'
  | _, _ => false
  end.

Definition is_empty (s : str) : bool :=
  match s with [] => true | _ => false end.

(** [s.startswith(p)] *)
Fixpoint startswith (p s : str) : bool :=
  match p, s with
  | [], _ => true
  | x :: p', y :: s' => Ascii.eqb x y && startswith p' s'
  | _ :: _, [] => false
  end.

(** [s.endswith(p)] *)
Definition endswith (p s : str) : bool := startswith (rev p) (rev s).

(** [s.lstrip(chars)], the characters to drop given as a class. *)
Fixpoint lstrip_by (p : ascii -> bool) (s : str) : str :=
  match s with
  | [] => []
  | c :: s' => if p c then lstrip_by p s' else s
  end.

Definition rstrip_by (p : ascii -> bool) (s : str) : str :=
  rev (lstrip_by p (rev s)).

Definition strip_by (p : ascii -> bool) (s : str) : str :=
  rstrip_by p (lstrip_by p s).

(** [s.strip()] *)
Definition strip (s : str) : str := strip_by isspace s.

(** [s.strip] with the double quote as its argument: every leading and
    trailing double quote goes. *)
Definition strip_quotes (s : str) : str := strip_by (Ascii.eqb dquote) s.

(** [s[1:-1]] *)
Definition slice_1_m1 (s : str) : str := removelast (tl s).

(** [s[-1]] of a non-empty string, [None] for the empty one (the source
    guards every use). *)
Definition last_char (s : str) : option ascii :=
  match rev s with [] => None | c :: _ => Some c end.

(** [s.split(sep)] for a one-character separator: never the empty list. *)
Fixpoint split_on (sep : ascii) (s : str) : list str :=
  match s with
  | [] => [[]]
  | c :: s' =>
      if Ascii.eqb c sep then [] :: split_on sep s'
      else match split_on sep s' with
           | [] => [[c]]
           | w :: ws => (c :: w) :: ws
           end
  end.

(** [s.replace(old, new)] for a non-empty [old]: occurrences are found left
    to right and do not overlap. *)
Fixpoint replace_fuel (fuel : nat) (old new s : str) : str :=
  match fuel with
  | O => s
  | S fuel' =>
      match s with
      | [] => []
      | c :: s' =>
          if startswith old s
          then new ++ replace_fuel fuel' old new (skipn (length old) s)
          else c :: replace_fuel fuel' old new s'
      end
  end.

Definition replace (old new s : str) : str :=
  replace_fuel (length s) old new s.

(* ================================================================== *)
(** * Regular expressions of the source *)
(* ================================================================== *)

(** Every pattern of the source is a sequence of atoms: literal text, an
    optional character, or a greedy repetition of a character class, with
    or without a capturing group, and the end anchor.  The leading [^] of
    three of the patterns is implied by [re.match], which only tries
    position 0. *)
Inductive atom : Type :=
| Lit (l : str)                (* literal text *)
| Opt (c : ascii)              (* the character, optional *)
| Star (p : ascii -> bool)     (* class, zero or more, greedy *)
| Plus (p : ascii -> bool)     (* class, one or more, greedy *)
| CapStar (p : ascii -> bool)  (* group around class, zero or more *)
| CapPlus (p : ascii -> bool)  (* group around class, one or more *)
| Eol.                         (* the end anchor *)

(** Length of the longest prefix of [s] inside the class. *)
Fixpoint run (p : ascii -> bool) (s : str) : nat :=
  match s with
  | c :: s' => if p c then S (run p s') else 0
  | [] => 0
  end.

(** Greedy repetition with backtracking: try [lo + k] characters first,
    then one less, down to [lo]. *)
Fixpoint try_down {A : Type} (f : nat -> option A) (lo k : nat) : option A :=
  match f (lo + k) with
  | Some r => Some r
  | None =>
      match k with
      | O => None
      | S k' => try_down f lo k'
      end
  end.

(** [re.match]: the groups of the first successful path, in order. *)
Fixpoint re_match (re : list atom) (s : str) (caps : list str)
  : option (list str) :=
  match re with
  | [] => Some (rev caps)
  | a :: re' =>
      match a with
      | Lit l =>
          if startswith l s then re_match re' (skipn (length l) s) caps
          else None
      | Opt c =>
          match s with
          | c' :: s' =>
              if Ascii.eqb c c'
              then match re_match re' s' caps with
                   | Some r => Some r
                   | None => re_match re' s caps
                   end
              else re_match re' s caps
          | [] => re_match re' s caps
          end
      | Star p =>
          try_down (fun n => re_match re' (skipn n s) caps) 0 (run p s)
      | Plus p =>
          match run p s with
          | O => None
          | S k => try_down (fun n => re_match re' (skipn n s) caps) 1 k
          end
      | CapStar p =>
          try_down (fun n => re_match re' (skipn n s) (firstn n s :: caps))
                   0 (run p s)
      | CapPlus p =>
          match run p s with
          | O => None
          | S k =>
              try_down (fun n => re_match re' (skipn n s) (firstn n s :: caps))
                       1 k
          end
      | Eol =>
          match s with
          | [] => re_match re' s caps
          | [c] => if Ascii.eqb c newline then re_match re' s caps else None
          | _ => None
          end
      end
  end.

(** [re.search]: the leftmost position where the pattern matches. *)
Fixpoint re_search (re : list atom) (s : str) : option (list str) :=
  match re_match re s [] with
  | Some g => Some g
  | None =>
      match s with
      | [] => None
      | _ :: s' => re_search re s'
      end
  end.

(** [\[resource\]] followed by the group [.*], with [re.DOTALL] *)
Definition resource_re : list atom := [Lit "[resource]"; CapStar isany].

(** [^(\w+)\s*=\s*(.+)$] *)
Definition assignment_re : list atom :=
  [CapPlus isword; Star isspace; Lit "="; Star isspace; CapPlus isdot; Eol].

(** [Color\(\s*([\d.]+)\s*,\s*([\d.]+)\s*,\s*([\d.]+)\s*,\s*([\d.]+)\s*\)] *)
Definition color_re : list atom :=
  [Lit "Color("; Star isspace; CapPlus iscolorchar; Star isspace;
   Lit ","; Star isspace; CapPlus iscolorchar; Star isspace;
   Lit ","; Star isspace; CapPlus iscolorchar; Star isspace;
   Lit ","; Star isspace; CapPlus iscolorchar; Star isspace;
   Lit ")"].

(** [Vector2\(\s*([\d.-]+)\s*,\s*([\d.-]+)\s*\)] *)
Definition vec2_re : list atom :=
  [Lit "Vector2("; Star isspace; CapPlus isvecchar; Star isspace;
   Lit ","; Star isspace; CapPlus isvecchar; Star isspace;
   Lit ")"].

(** [^-?\d+$] *)
Definition int_re : list atom := [Opt "-"; Plus isdigit; Eol].

(** [^-?\d+\.\d*$] *)
Definition float_re : list atom :=
  [Opt "-"; Plus isdigit; Lit "."; Star isdigit; Eol].

(* ================================================================== *)
(** * Values, dictionaries and outcomes *)
(* ================================================================== *)

#[local] Set Warnings "-register-all".

(** The Python objects the parser builds: [None], [bool], [int], [float],
    [str], [list] and [dict].  A dictionary keeps its keys in insertion
    order, which is the order [json.dump] writes them in. *)
Inductive Value : Type :=
| VNone
| VBool (b : bool)
| VInt (z : Z)
| VFloat (q : Q)
| VStr (s : str)
| VList (l : list Value)
| VDict (d : list (str * Value)).

Definition dict := list (str * Value).

(** [d[k] = v]: an existing key keeps its place and takes the new value, a
    new key goes last. *)
Fixpoint dict_set (k : str) (v : Value) (d : dict) : dict :=
  match d with
  | [] => [(k, v)]
  | (k', v') :: d' =>
      if str_eqb k' k then (k', v) :: d' else (k', v') :: dict_set k v d'
  end.

(** [d.get(k)] *)
Fixpoint dict_get (k : str) (d : dict) : option Value :=
  match d with
  | [] => None
  | (k', v') :: d' => if str_eqb k' k then Some v' else dict_get k d'
  end.

(** The dictionary the source returns for a [Color] literal. *)
Definition Color (r g b a : Q) : Value :=
  VDict [(lit "r", VFloat r); (lit "g", VFloat g);
         (lit "b", VFloat b); (lit "a", VFloat a)].

(** The dictionary the source returns for a [Vector2] literal. *)
Definition Vector2 (x y : Q) : Value :=
  VDict [(lit "x", VFloat x); (lit "y", VFloat y)].

Inductive exn : Type := ValueError.

(** Outcome of a call: a value, an exception, or the recursion budget of
    the model spent ([NoFuel] is shown below never to come out of
    [parse_value]). *)
Inductive res (A : Type) : Type :=
| Ok (a : A)
| Raise (e : exn)
| NoFuel.

Arguments Ok {A} a.
Arguments Raise {A} e.
Arguments NoFuel {A}.

Definition bind {A B : Type} (m : res A) (k : A -> res B) : res B :=
  match m with
  | Ok a => k a
  | Raise e => Raise e
  | NoFuel => NoFuel
  end.

Notation "x <- m ;; k" := (bind m (fun x => k))
  (at level 61, m at next level, right associativity).

(** [try: ... except: return default]: the bare [except] of the source
    swallows every exception. *)
Definition try_except {A : Type} (m : res A) (default : A) : res A :=
  match m with
  | Ok a => Ok a
  | Raise _ => Ok default
  | NoFuel => NoFuel
  end.

(* ================================================================== *)
(** * Numeric conversions *)
(* ================================================================== *)

Definition digit_value (c : ascii) : Z := (Z.of_N (code c) - 48)%Z.

(** Base-10 value of a string of digits. *)
Definition digits_value (ds : str) : Z :=
  fold_left (fun acc c => (10 * acc + digit_value c)%Z) ds 0%Z.

(** The sign of a number text and what follows it. *)
Definition split_sign (s : str) : bool * str :=
  match s with
  | c :: r => if Ascii.eqb c "-" then (true, r) else (false, s)
  | [] => (false, s)
  end.

Definition signed (neg : bool) (m : Z) : Z := if neg then (- m)%Z else m.

(** [int(s)] on the texts that can reach it here: blanks around the
    number are dropped, then an optional minus and digits are read; any
    other text is refused.  (The plus sign and the underscores that [int]
    also takes never reach it.) *)
Definition py_int (s : str) : option Z :=
  let sign_body := split_sign (strip s) in
  let ds := snd sign_body in
  if negb (is_empty ds) && forallb isdigit ds
  then Some (signed (fst sign_body) (digits_value ds))
  else None.

(** The value of the decimal with integer digits [ip] and fraction digits
    [fp], in lowest terms. *)
Definition decimal_value (neg : bool) (ip fp : str) : Q :=
  Qred (Qmake (signed neg (digits_value (ip ++ fp)))
              (Z.to_pos (10 ^ Z.of_nat (length fp)))).

(** Digits, then optionally a point and digits, with a digit somewhere. *)
Definition read_decimal (neg : bool) (body : str) : option Q :=
  let ip := firstn (run isdigit body) body in
  match skipn (run isdigit body) body with
  | [] => if is_empty ip then None else Some (decimal_value neg ip [])
  | c :: fp =>
      if Ascii.eqb c "." && forallb isdigit fp && negb (is_empty (ip ++ fp))
      then Some (decimal_value neg ip fp) else None
  end.

(** [float(s)] on the texts that can reach it here, which are drawn from
    digits, the point, the minus and blanks: blanks around the number are
    dropped, then an optional minus and a decimal are read.  Anything else
    in that alphabet makes [float] raise [ValueError]. *)
Definition py_float (s : str) : option Q :=
  let sign_body := split_sign (strip s) in
  read_decimal (fst sign_body) (snd sign_body).

(** [float(s)] with its exception. *)
Definition float (s : str) : res Q :=
  match py_float s with
  | Some q => Ok q
  | None => Raise ValueError
  end.

(** [int(s)] with its exception. *)
Definition int (s : str) : res Z :=
  match py_int s with
  | Some z => Ok z
  | None => Raise ValueError
  end.

(** [m.group(i)] for [i >= 1] *)
Definition group (i : nat) (m : list str) : str := nth (i - 1) m [].

(** [char in chars] for a one-character [char] *)
Definition char_in (char : ascii) (chars : str) : bool :=
  existsb (Ascii.eqb char) chars.

(* ================================================================== *)
(** * The array parser *)
(* ================================================================== *)

Module ArrayScan.

(** The local variables of [parse_array]. *)
Record state : Type := mk {
  items : list Value;
  depth : Z;
  current : str;
  in_string : bool
}.

Definition init : state := mk [] 0%Z [] false.

(** One turn of [for char in content]. *)
Definition step (parse_value : str -> res Value) (st : state) (char : ascii)
  : res state :=
  let in_string' :=
    if Ascii.eqb char dquote
       && (is_empty (current st)
           || negb (match last_char (current st) with
                    | Some c => Ascii.eqb c backslash
                    | None => false
                    end))
    then negb (in_string st) else in_string st in
  if negb in_string' then
    if char_in char "[{" then
      Ok (mk (items st) (depth st + 1)%Z (current st ++ [char]) in_string')
    else if char_in char "]}" then
      Ok (mk (items st) (depth st - 1)%Z (current st ++ [char]) in_string')
    else if Ascii.eqb char "," && (depth st =? 0)%Z then
      v <- parse_value (strip (current st)) ;;
      Ok (mk (items st ++ [v]) (depth st) [] in_string')
    else
      Ok (mk (items st) (depth st) (current st ++ [char]) in_string')
  else
    Ok (mk (items st) (depth st) (current st ++ [char]) in_string').

Fixpoint loop (parse_value : str -> res Value) (content : str) (st : state)
  : res state :=
  match content with
  | [] => Ok st
  | char :: content' =>
      st' <- step parse_value st char ;; loop parse_value content' st'
  end.

(** The body of the [try]. *)
Definition body (parse_value : str -> res Value) (value_str : str)
  : res (list Value) :=
  let content := strip (slice_1_m1 value_str) in
  if is_empty content then Ok []
  else
    st <- loop parse_value content init ;;
    if negb (is_empty (strip (current st))) then
      v <- parse_value (strip (current st)) ;; Ok (items st ++ [v])
    else Ok (items st).

End ArrayScan.

(** [parse_array], with the [parse_value] it calls as a parameter. *)
Definition parse_array_with (parse_value : str -> res Value) (value_str : str)
  : res Value :=
  l <- try_except (ArrayScan.body parse_value value_str) [] ;; Ok (VList l).

(* ================================================================== *)
(** * The map parser *)
(* ================================================================== *)

Module DictScan.

(** The local variables of [parse_dict]; the index [i] is kept as the
    rest of [content] together with the character before it. *)
Record state : Type := mk {
  result : dict;
  depth : Z;
  current_key : option str;
  current_val : str;
  in_string : bool;
  parsing_key : bool
}.

Definition init : state := mk [] 0%Z None [] false true.

(** One turn of the [while] loop; [prev] is [content[i-1]], [None] when
    [i == 0]. *)
Definition step (parse_value : str -> res Value) (prev : option ascii)
           (st : state) (char : ascii) : res state :=
  let in_string' :=
    if Ascii.eqb char dquote
       && (match prev with
           | None => true
           | Some c => negb (Ascii.eqb c backslash)
           end)
    then negb (in_string st) else in_string st in
  let append :=
    mk (result st) (depth st) (current_key st) (current_val st ++ [char])
       in_string' (parsing_key st) in
  if negb in_string' then
    if char_in char "[{" then
      Ok (mk (result st) (depth st + 1)%Z (current_key st)
             (current_val st ++ [char]) in_string' (parsing_key st))
    else if char_in char "]}" then
      Ok (mk (result st) (depth st - 1)%Z (current_key st)
             (current_val st ++ [char]) in_string' (parsing_key st))
    else if Ascii.eqb char ":" && (depth st =? 0)%Z && parsing_key st then
      Ok (mk (result st) (depth st)
             (Some (strip_quotes (strip (current_val st)))) []
             in_string' false)
    else if Ascii.eqb char "," && (depth st =? 0)%Z then
      result' <- match current_key st with
                 | Some k =>
                     v <- parse_value (strip (current_val st)) ;;
                     Ok (dict_set k v (result st))
                 | None => Ok (result st)
                 end ;;
      Ok (mk result' (depth st) None [] in_string' true)
    else Ok append
  else Ok append.

Fixpoint loop (parse_value : str -> res Value) (prev : option ascii)
         (content : str) (st : state) : res state :=
  match content with
  | [] => Ok st
  | char :: content' =>
      st' <- step parse_value prev st char ;;
      loop parse_value (Some char) content' st'
  end.

(** The body of the [try]. *)
Definition body (parse_value : str -> res Value) (value_str : str)
  : res dict :=
  let content := strip (slice_1_m1 value_str) in
  if is_empty content then Ok []
  else
    st <- loop parse_value None content init ;;
    match current_key st with
    | Some k =>
        if negb (is_empty (strip (current_val st))) then
          v <- parse_value (strip (current_val st)) ;;
          Ok (dict_set k v (result st))
        else Ok (result st)
    | None => Ok (result st)
    end.

End DictScan.

(** [parse_dict], with the [parse_value] it calls as a parameter. *)
Definition parse_dict_with (parse_value : str -> res Value) (value_str : str)
  : res Value :=
  d <- try_except (DictScan.body parse_value value_str) [] ;; Ok (VDict d).

(* ================================================================== *)
(** * The value classifier *)
(* ================================================================== *)

(** The body of [parse_value]; [rec] stands for the recursive calls that
    [parse_array] and [parse_dict] make. *)
Definition parse_value_body (rec : str -> res Value) (value_str : str)
  : res Value :=
  let value_str := strip value_str in
  if str_eqb value_str "true" then Ok (VBool true)
  else if str_eqb value_str "false" then Ok (VBool false)
  else if str_eqb value_str "null" || str_eqb value_str "nil" then Ok VNone
  else
    match re_match color_re value_str [] with
    | Some color_match =>
        r <- float (group 1 color_match) ;;
        g <- float (group 2 color_match) ;;
        b <- float (group 3 color_match) ;;
        a <- float (group 4 color_match) ;;
        Ok (Color r g b a)
    | None =>
        match re_match vec2_re value_str [] with
        | Some vec2_match =>
            x <- float (group 1 vec2_match) ;;
            y <- float (group 2 vec2_match) ;;
            Ok (Vector2 x y)
        | None =>
            if startswith [dquote] value_str && endswith [dquote] value_str
            then Ok (VStr (slice_1_m1 value_str))
            else if startswith "[" value_str
            then parse_array_with rec value_str
            else if startswith "{" value_str
            then parse_dict_with rec value_str
            else
              match re_match int_re value_str [] with
              | Some _ => z <- int value_str ;; Ok (VInt z)
              | None =>
                  match re_match float_re value_str [] with
                  | Some _ => q <- float value_str ;; Ok (VFloat q)
                  | None => Ok (VStr value_str)
                  end
              end
        end
    end.

(** The recursion of [parse_value] through the composite parsers, with a
    budget on its depth. *)
Fixpoint parse_value_fuel (fuel : nat) (value_str : str) : res Value :=
  match fuel with
  | O => NoFuel
  | S fuel' => parse_value_body (parse_value_fuel fuel') value_str
  end.

(** [parse_value]: every recursive call is on a strictly shorter string, so
    a budget above the length of the text is never spent
    ([parse_value_fuel_enough] below). *)
Definition parse_value (value_str : str) : res Value :=
  parse_value_fuel (S (length value_str)) value_str.

Definition parse_array (value_str : str) : res Value :=
  parse_array_with parse_value value_str.

Definition parse_dict (value_str : str) : res Value :=
  parse_dict_with parse_value value_str.

(* ================================================================== *)
(** * Section extraction, assignment splitting and path rewriting *)
(* ================================================================== *)

(** One turn of the loop over the lines of the section. *)
Definition section_step (data : dict) (line : str) : res dict :=
  let line := strip line in
  if is_empty line || startswith "#" line || startswith "script" line
  then Ok data
  else
    match re_match assignment_re line [] with
    | Some m =>
        let key := group 1 m in
        let value_str := strip (group 2 m) in
        v <- parse_value value_str ;; Ok (dict_set key v data)
    | None => Ok data
    end.

Fixpoint section_loop (lines : list str) (data : dict) : res dict :=
  match lines with
  | [] => Ok data
  | line :: lines' =>
      data' <- section_step data line ;; section_loop lines' data'
  end.

(** The document of a section body. *)
Definition parse_section (resource_content : str) : res dict :=
  section_loop (split_on newline (strip resource_content)) [].

(** [parse_tres_file] on the text read from the file: [Ok None] is the
    [return None] of the source. *)
Definition parse_tres_file (content : str) : res (option dict) :=
  match re_search resource_re content with
  | None => Ok None
  | Some resource_match =>
      data <- parse_section (group 1 resource_match) ;; Ok (Some data)
  end.

(** [convert_path] on a string argument. *)
Definition convert_path (godot_path : str) : str :=
  if is_empty godot_path then []
  else
    let path := replace "res://" [] godot_path in
    replace [backslash] "/" path.

(* ================================================================== *)
(** * Definitions used to state the properties *)
(* ================================================================== *)

(** ** For the recursion budget *)

(** Two stand-ins for the recursive call are interchangeable on the texts
    shorter than [bound] when they agree there and neither runs out. *)
Definition agree_below (bound : nat) (r1 r2 : str -> res Value) : Prop :=
  forall t, length t < bound -> r1 t = r2 t /\ r1 t <> NoFuel.

(** ** For the matcher and the scalars *)

(** A fact about one character, by inspection of all of them. *)
Ltac by_cases c :=
  destruct c as [[] [] [] [] [] [] [] []]; vm_compute; intuition congruence.



(** ** For the array parser *)

(** The fragment ends in a backslash: a double quote that comes next is
    escaped. *)
Definition escaped_after (current : str) : bool :=
  match last_char current with
  | Some c => Ascii.eqb c backslash
  | None => false
  end.

(** What a character adds to the nesting depth. *)
Definition bracket (char : ascii) : Z :=
  if char_in char "[{" then 1%Z
  else if char_in char "]}" then (-1)%Z
  else 0%Z.

(** The splitting of an array body as section 4.4 of the specification
    words it, with no classification mixed in: the in-string flag flips on
    a double quote that is not escaped, the depth moves on brackets outside
    strings, and a comma at depth 0 outside a string ends the fragment.
    The result is the list of fragments ended by a comma and the fragment
    left when the text ends. *)
Fixpoint split_top (content : str) (depth : Z) (in_string : bool)
         (current : str) : list str * str :=
  match content with
  | [] => ([], current)
  | char :: rest =>
      let in_string' :=
        xorb in_string
             (Ascii.eqb char dquote && negb (escaped_after current)) in
      if in_string' then split_top rest depth in_string' (current ++ [char])
      else if Ascii.eqb char "," && (depth =? 0)%Z then
        let (fs, last) := split_top rest depth in_string' [] in
        (current :: fs, last)
      else
        split_top rest (depth + bracket char)%Z in_string' (current ++ [char])
  end.

(** The element texts of an array body: every fragment trimmed, the last
    one dropped when it is blank. *)
Definition elements (content : str) : list str :=
  let (fs, last) := split_top content 0%Z false [] in
  map strip fs ++ (if is_empty (strip last) then [] else [strip last]).

(** [sep.join(l)] *)
Fixpoint join (sep : str) (l : list str) : str :=
  match l with
  | [] => []
  | x :: l' =>
      match l' with
      | [] => x
      | _ :: _ => x ++ sep ++ join sep l'
      end
  end.

(** Calls in sequence, stopping at the first that does not return. *)
Fixpoint map_res {A B : Type} (f : A -> res B) (l : list A) : res (list B) :=
  match l with
  | [] => Ok []
  | x :: l' => y <- f x ;; ys <- map_res f l' ;; Ok (y :: ys)
  end.

(** The value of a call under [f]. *)
Definition res_map {A B : Type} (f : A -> B) (m : res A) : res B :=
  x <- m ;; Ok (f x).

(** ** For the Color and Vector2 literals *)




(** ** For the map parser *)



(** A character that may stand inside a quoted key: no double quote and
    no backslash. *)
Definition inside_key (c : ascii) : bool :=
  negb (Ascii.eqb c dquote) && negb (Ascii.eqb c backslash).

(** A character that the scanners give no meaning to outside a string. *)
Definition plain (c : ascii) : bool :=
  negb (char_in c (dquote :: lit "[]{},")).



(** ** For the section extractor and the document *)

(** The section marker. *)
Definition marker : str := "[resource]".

(** [m] occurs in [s]. *)
Definition contains (m s : str) : Prop :=
  exists pre post, s = pre ++ m ++ post.

(** [pre] is what stands before the first occurrence of [m] in [s]. *)
Definition first_occurrence (m s pre post : str) : Prop :=
  s = pre ++ m ++ post
  /\ forall pre' post', s = pre' ++ m ++ post' -> length pre <= length pre'.

(** The assignment a line holds, as section 4.2 of the specification has
    it: the line is trimmed; blank lines, comment lines and lines that
    start with [script] hold none; the others hold one when they read
    [identifier = rest], the key being the identifier and the raw value
    the rest, trimmed. *)
Definition assignment_of_line (line : str) : option (str * str) :=
  let line := strip line in
  if is_empty line || startswith "#" line || startswith "script" line
  then None
  else
    match re_match assignment_re line [] with
    | Some m => Some (group 1 m, strip (group 2 m))
    | None => None
    end.

(** The assignments of a list of lines, in order. *)
Definition assignments (lines : list str) : list (str * str) :=
  flat_map (fun line =>
              match assignment_of_line line with
              | Some a => [a]
              | None => []
              end) lines.

(** The document assembled from assignments, one [d[k] = v] each. *)
Fixpoint assemble (kvs : list (str * str)) (data : dict) : res dict :=
  match kvs with
  | [] => Ok data
  | (k, raw) :: rest =>
      v <- parse_value raw ;; assemble rest (dict_set k v data)
  end.

(** The key is among [ks]. *)
Definition seen (k : str) (ks : list str) : bool :=
  existsb (fun k' => str_eqb k' k) ks.

(** The keys of [ks] that are not in [before], each listed where it is
    first met. *)
Fixpoint first_seen (before ks : list str) : list str :=
  match ks with
  | [] => []
  | k :: rest =>
      if seen k before then first_seen before rest
      else k :: first_seen (before ++ [k]) rest
  end.

(** The raw value of the last assignment to [k]. *)
Fixpoint last_raw (k : str) (kvs : list (str * str)) : option str :=
  match kvs with
  | [] => None
  | (k', raw) :: rest =>
      match last_raw k rest with
      | Some r => Some r
      | None => if str_eqb k' k then Some raw else None
      end
  end.

(** A section with two lines for [hp]. *)
Definition two_hp_lines : str :=
  lit "hp = 1" ++ newline :: lit "name = Slime" ++ newline :: lit "hp = 2".

(** ** For the path rewrite *)

(** [pre] taken from the front of [p], when [p] starts with it. *)
Definition strip_prefix (pre p : str) : str :=
  if startswith pre p then skipn (length pre) p else p.

(** Every backslash made a slash. *)
Definition normalize_separators (p : str) : str :=
  map (fun c => if Ascii.eqb c backslash then "/"%char else c) p.

(** The rewrite as the claim words it: the prefix [res://] goes from the
    front of the path, every backslash becomes a slash, and all other
    characters stay. *)
Definition convert_path_claimed (p : str) : str :=
  normalize_separators (strip_prefix "res://" p).

(** [old] occurs somewhere in [s]. *)
Fixpoint occurs (old s : str) : bool :=
  startswith old s
  || match s with
     | [] => false
     | _ :: s' => occurs old s'
     end.

(** ** For the fail-soft branches of the composite parsers *)

(** The first character of [t] that the scanners give a meaning to: a
    double quote, a bracket, a brace or a comma. *)
Definition first_special (t : str) : option ascii :=
  hd_error (lstrip_by plain t).

(** A pending fragment that cannot start a [Color] or [Vector2] literal:
    its first meaningful character is no comma, and as long as it holds
    no meaningful character the scan is at depth 0 outside a string. *)
Definition safe (current : str) (depth : Z) (in_string : bool) : Prop :=
  first_special current <> Some ","%char
  /\ (first_special current = None -> depth = 0%Z /\ in_string = false).

(** The classifier handed to a scanner returns on every such fragment. *)
Definition returns_on_safe (pv : str -> res Value) : Prop :=
  forall t, first_special t <> Some ","%char -> exists v, pv (strip t) = Ok v.

(** A stand-in for the classifier that only tells whether the trimmed text
    matches the [Color] or the [Vector2] pattern. *)
Definition literal_probe (t : str) : res Value :=
  match re_match color_re (strip t) [], re_match vec2_re (strip t) [] with
  | None, None => Ok VNone
  | _, _ => Raise ValueError
  end.



(** ** For the section parser *)

(** A section with a malformed colour among its fields. *)
Definition bad_tint_lines : str :=
  lit "hp = 1" ++ newline :: lit "tint = Color(1..0, 0, 0, 1)".

(* ================================================================== *)
(** * The document assembler *)
(* ================================================================== *)

(** The converters of the four categories.  What they read from the file
    system is their argument: the files a [glob] yields, in the order it
    yields them, each as its stem and the text read from it, and [None]
    for a directory that does not exist.  What they print is the first
    component of their outcome; a message is kept as its fixed text and
    the value put after it, not yet formatted. *)

Inductive failure : Type := ValueErr | AttributeErr.

(** Outcome of a converter: a value, or the exception that leaves it.
    [Unfinished] stands for [NoFuel] of the parser. *)
Inductive outcome (A : Type) : Type :=
| Returns (a : A)
| Raises (f : failure)
| Unfinished.

Arguments Returns {A} a.
Arguments Raises {A} f.
Arguments Unfinished {A}.

Definition outcome_bind {A B : Type} (m : outcome A) (k : A -> outcome B)
  : outcome B :=
  match m with
  | Returns a => k a
  | Raises f => Raises f
  | Unfinished => Unfinished
  end.

(** A line written by [print]. *)
Record message : Type := mk_message { label : str; subject : Value }.

(** What has been printed, and the outcome. *)
Definition io (A : Type) : Type := (list message * outcome A)%type.

Definition io_ret {A : Type} (a : A) : io A := ([], Returns a).

Definition io_bind {A B : Type} (m : io A) (k : A -> io B) : io B :=
  match snd m with
  | Returns a => (fst m ++ fst (k a), snd (k a))
  | Raises f => (fst m, Raises f)
  | Unfinished => (fst m, Unfinished)
  end.

Notation "x <~ m ;; k" := (io_bind m (fun x => k))
  (at level 61, m at next level, right associativity).

Definition print (m : message) : io unit := ([m], Returns tt).

(** A call of the parser from a converter. *)
Definition call {A : Type} (m : res A) : io A :=
  ([], match m with
       | Ok a => Returns a
       | Raise ValueError => Raises ValueErr
       | NoFuel => Unfinished
       end).

(** The truth value of an object. *)
Definition truthy (v : Value) : bool :=
  match v with
  | VNone => false
  | VBool b => b
  | VInt z => negb (z =? 0)%Z
  | VFloat q => negb (Qeq_bool q 0)
  | VStr s => negb (is_empty s)
  | VList l => match l with [] => false | _ :: _ => true end
  | VDict d => match d with [] => false | _ :: _ => true end
  end.

(** [convert_path] on any object: a falsy one gives the empty string, a
    string is rewritten, and any other object has no [replace]. *)
Definition convert_path_value (godot_path : Value) : outcome Value :=
  if negb (truthy godot_path) then Returns (VStr [])
  else
    match godot_path with
    | VStr s =>
        let path := replace "res://" [] s in
        Returns (VStr (replace [backslash] "/" path))
    | _ => Raises AttributeErr
    end.

(** [if key in data: data[key] = convert_path(data[key])] *)
Definition rewrite_path (key : str) (data : dict) : outcome dict :=
  match dict_get key data with
  | Some v =>
      outcome_bind (convert_path_value v)
                   (fun v' => Returns (dict_set key v' data))
  | None => Returns data
  end.

Fixpoint rewrite_paths (keys : list str) (data : dict) : outcome dict :=
  match keys with
  | [] => Returns data
  | key :: keys' =>
      outcome_bind (rewrite_path key data) (rewrite_paths keys')
  end.

(** The fields a converter sets before it rewrites the paths. *)
Definition set_tags (tags : list (str * Value)) (data : dict) : dict :=
  fold_left (fun d kv => dict_set (fst kv) (snd kv) d) tags data.

(** [data.get('display_name', tres_file.stem)] *)
Definition display_name (data : dict) (stem : str) : Value :=
  match dict_get "display_name" data with
  | Some v => v
  | None => VStr stem
  end.

(** One turn of a loop over the files of a directory: the file is parsed;
    an absent or empty document is passed over; otherwise the fields of
    [tags] are set, the fields of [path_keys] are rewritten, the document
    is appended and a line is printed. *)
Definition convert_file (tags : list (str * Value)) (path_keys : list str)
           (text : str) (output : list dict) (file : str * str)
  : io (list dict) :=
  data <~ call (parse_tres_file (snd file)) ;;
  match data with
  | Some ((_ :: _) as d) =>
      d' <~ ([], rewrite_paths path_keys (set_tags tags d)) ;;
      _ <~ print (mk_message text (display_name d' (fst file))) ;;
      io_ret (output ++ [d'])
  | _ => io_ret output
  end.

Fixpoint convert_files (tags : list (str * Value)) (path_keys : list str)
         (text : str) (files : list (str * str)) (output : list dict)
  : io (list dict) :=
  match files with
  | [] => io_ret output
  | file :: files' =>
      output' <~ convert_file tags path_keys text output file ;;
      convert_files tags path_keys text files' output'
  end.

(** A loop over a directory that may not exist. *)
Definition convert_dir (tags : list (str * Value)) (path_keys : list str)
           (text : str) (dir : option (list (str * str)))
           (output : list dict) : io (list dict) :=
  match dir with
  | Some files => convert_files tags path_keys text files output
  | None => io_ret output
  end.

Definition convert_monsters (monsters : list (str * str)) : io (list dict) :=
  convert_files [] [lit "sprite_path"; lit "portrait_path"]
                "  Converted monster: " monsters [].

Definition convert_skills (skills : list (str * str))
           (monster_skills : option (list (str * str))) : io (list dict) :=
  output <~ convert_files [] [lit "icon_path"] "  Converted skill: "
                          skills [] ;;
  convert_dir [(lit "is_monster_skill", VBool true)] [lit "icon_path"]
              "  Converted monster skill: " monster_skills output.

Definition convert_heroes (heroes : list (str * str))
           (hero_skills : option (list (str * str))) : io (list dict) :=
  output <~ convert_files []
              [lit "sprite_path"; lit "portrait_path";
               lit "battle_sprite_path"]
              "  Converted hero: " heroes [] ;;
  convert_dir [] [] "  Converted hero skill: " hero_skills output.

Fixpoint items_loop (subdirs : list (str * option (list (str * str))))
         (output : list dict) : io (list dict) :=
  match subdirs with
  | [] => io_ret output
  | (subdir, dir) :: subdirs' =>
      output' <~ convert_dir [(lit "item_category", VStr subdir)]
                             [lit "icon_path"] "  Converted item: "
                             dir output ;;
      items_loop subdirs' output'
  end.

Definition convert_items (consumables equipment : option (list (str * str)))
  : io (list dict) :=
  items_loop [(lit "consumables", consumables); (lit "equipment", equipment)]
             [].

(** ** For the properties of the assembler *)

(** The documents the files of a directory hold: those of the files that
    parse to a document with a field. *)
Definition documents (files : list (str * str)) : list dict :=
  flat_map (fun file =>
              match parse_tres_file (snd file) with
              | Ok (Some ((_ :: _) as d)) => [d]
              | _ => []
              end) files.

(** The field, when the document has it, holds a string without a
    backslash. *)
Definition clean_path (key : str) (d : dict) : Prop :=
  match dict_get key d with
  | Some v =>
      exists p, v = VStr p
                /\ forallb (fun c => negb (Ascii.eqb c backslash)) p = true
  | None => True
  end.

(** The field of [d'] is the field of [d] after [convert_path]. *)
Definition path_rewritten (key : str) (d d' : dict) : Prop :=
  match dict_get key d with
  | Some v =>
      exists v', convert_path_value v = Returns v'
                 /\ dict_get key d' = Some v'
  | None => dict_get key d' = None
  end.

(** The fields outside [keys] are the same in both documents. *)
Definition same_fields_outside (keys : list str) (d d' : dict) : Prop :=
  forall k, ~ In k keys -> dict_get k d' = dict_get k d.

(** [d'] is [d] with the path fields of [keys] rewritten and nothing else
    touched: the same fields in the same order, the others with the same
    values, each path field the outcome of [convert_path] and free of
    backslashes. *)
Definition rewritten_fields (keys : list str) (d d' : dict) : Prop :=
  map fst d' = map fst d
  /\ same_fields_outside keys d d'
  /\ forall k, In k keys -> path_rewritten k d d' /\ clean_path k d'.

(** [d'] is [d] with the field [tag] set to [v], in its place if [d] has
    it and last otherwise, and the path fields of [keys] rewritten. *)
Definition tagged_fields (tag : str) (v : Value) (keys : list str)
           (d d' : dict) : Prop :=
  dict_get tag d' = Some v
  /\ map fst d' = (if seen tag (map fst d) then map fst d
                   else map fst d ++ [tag])
  /\ same_fields_outside (tag :: keys) d d'
  /\ forall k, In k keys -> path_rewritten k d d' /\ clean_path k d'.

(** The documents of a directory that may not exist. *)
Definition documents_of (dir : option (list (str * str))) : list dict :=
  match dir with
  | Some files => documents files
  | None => []
  end.

(** ** Files for the examples *)

(** A monster file with a section, a name and a sprite path written with
    a backslash. *)
Definition slime_file : str * str :=
  (lit "slime",
   lit "[gd_resource]" ++ newline :: lit "[resource]" ++ newline
   :: lit "display_name = " ++ dquote :: lit "Slime" ++ dquote :: newline
   :: lit "sprite_path = " ++ dquote :: lit "res://art" ++ backslash
   :: lit "slime.png" ++ [dquote]).

(** A file without a section. *)
Definition plain_file : str * str := (lit "notes", lit "nothing to convert").

(** A file with a malformed colour. *)
Definition bad_tint_file : str * str :=
  (lit "ghost", lit "[resource]" ++ newline :: bad_tint_lines).

(** A file whose sprite path is a number. *)
Definition number_path_file : str * str :=
  (lit "odd", lit "[resource]" ++ newline :: lit "sprite_path = 5").

(** What a converter returned, the empty list if it raised. *)
Definition returned (run : io (list dict)) : list dict :=
  match snd run with
  | Returns output => output
  | _ => []
  end.

(** ** For arrays of strings *)

(** The text between two double quotes. *)
Definition quoted (u : str) : str := dquote :: u ++ [dquote].

(* ================================================================== *)
(** * Facts about characters and strings *)
(* ================================================================== *)

Lemma lstrip_by_length (p : ascii -> bool) (s : str) :
  length (lstrip_by p s) <= length s.
Proof.
  induction s as [|c s IH]; simpl; [lia|].
  destruct (p c); simpl; lia.
Qed.

Lemma strip_by_length (p : ascii -> bool) (s : str) :
  length (strip_by p s) <= length s.
Proof.
  unfold strip_by, rstrip_by.
  rewrite length_rev.
  etransitivity; [apply lstrip_by_length|].
  rewrite length_rev. apply lstrip_by_length.
Qed.

Lemma strip_length (s : str) : length (strip s) <= length s.
Proof. apply strip_by_length. Qed.

Lemma removelast_length (s : str) : length (removelast s) <= length s.
Proof.
  induction s as [|c s IH]; simpl; [lia|].
  destruct s; simpl in *; lia.
Qed.

Lemma slice_1_m1_length (s : str) :
  s <> [] -> length (slice_1_m1 s) < length s.
Proof.
  destruct s as [|c s]; [congruence|]. intros _.
  unfold slice_1_m1. simpl.
  pose proof (removelast_length s). lia.
Qed.

Lemma content_shorter (s : str) :
  is_empty (strip (slice_1_m1 s)) = false ->
  length (strip (slice_1_m1 s)) < length s.
Proof.
  intros H. destruct s as [|c s]; [discriminate H|].
  pose proof (strip_length (slice_1_m1 (c :: s))).
  pose proof (slice_1_m1_length (c :: s)).
  assert (c :: s <> []) by discriminate. intuition lia.
Qed.

(* ================================================================== *)
(** * The recursion budget is never spent *)
(* ================================================================== *)

Lemma agree_below_weaken (b b' : nat) r1 r2 :
  b' <= b -> agree_below b r1 r2 -> agree_below b' r1 r2.
Proof. intros Hle H t Ht. apply H. lia. Qed.

Lemma bind_same {A B : Type} (m1 m2 : res A) (k1 k2 : A -> res B) :
  m1 = m2 -> m1 <> NoFuel ->
  (forall a, m1 = Ok a -> k1 a = k2 a /\ k1 a <> NoFuel) ->
  bind m1 k1 = bind m2 k2 /\ bind m1 k1 <> NoFuel.
Proof.
  intros <- Hn Hk. destruct m1 as [a|e|]; simpl.
  - apply Hk. reflexivity.
  - split; [reflexivity|discriminate].
  - congruence.
Qed.

Lemma ok_same {A : Type} (a : A) : Ok a = Ok a /\ Ok a <> NoFuel.
Proof. split; [reflexivity|discriminate]. Qed.

Lemma array_step_current st st' pv c :
  ArrayScan.step pv st c = Ok st' ->
  length (ArrayScan.current st') <= S (length (ArrayScan.current st)).
Proof.
  unfold ArrayScan.step. intros H.
  repeat match type of H with
         | context [if ?b then _ else _] => destruct b
         | context [bind ?m _] => destruct m; simpl in H
         end;
    inversion H; subst; simpl; rewrite ?length_app; simpl; lia.
Qed.

Lemma array_loop_current pv content : forall st st',
  ArrayScan.loop pv content st = Ok st' ->
  length (ArrayScan.current st')
  <= length (ArrayScan.current st) + length content.
Proof.
  induction content as [|c content IH]; simpl; intros st st' H.
  - inversion H; subst. lia.
  - destruct (ArrayScan.step pv st c) as [st1| |] eqn:E; simpl in H;
      try discriminate.
    apply IH in H. apply array_step_current in E. lia.
Qed.

Lemma array_step_same r1 r2 st c :
  agree_below (S (length (ArrayScan.current st))) r1 r2 ->
  ArrayScan.step r1 st c = ArrayScan.step r2 st c
  /\ ArrayScan.step r1 st c <> NoFuel.
Proof.
  intros H. unfold ArrayScan.step.
  repeat match goal with
         | |- context [if ?b then _ else _] => destruct b
         end; try apply ok_same.
  all: pose proof (strip_length (ArrayScan.current st)).
  all: apply bind_same; [apply H; lia | apply H; lia | intros; apply ok_same].
Qed.

Lemma array_loop_same r1 r2 content : forall st,
  agree_below (S (length (ArrayScan.current st) + length content)) r1 r2 ->
  ArrayScan.loop r1 content st = ArrayScan.loop r2 content st
  /\ ArrayScan.loop r1 content st <> NoFuel.
Proof.
  induction content as [|c content IH]; simpl; intros st H.
  - apply ok_same.
  - destruct (array_step_same r1 r2 st c) as [E N].
    { eapply agree_below_weaken; [|exact H]. lia. }
    apply bind_same; auto.
    intros st1 E1. apply IH.
    eapply agree_below_weaken; [|exact H].
    apply array_step_current in E1. lia.
Qed.

Lemma array_body_same r1 r2 s :
  agree_below (length s) r1 r2 ->
  ArrayScan.body r1 s = ArrayScan.body r2 s
  /\ ArrayScan.body r1 s <> NoFuel.
Proof.
  intros H. unfold ArrayScan.body.
  destruct (is_empty (strip (slice_1_m1 s))) eqn:Hc; [apply ok_same|].
  apply content_shorter in Hc.
  destruct (array_loop_same r1 r2 (strip (slice_1_m1 s)) ArrayScan.init)
    as [E N].
  { eapply agree_below_weaken; [|exact H]. simpl. lia. }
  apply bind_same; auto.
  intros st E1. apply array_loop_current in E1. simpl in E1.
  destruct (negb _); [|apply ok_same].
  pose proof (strip_length (ArrayScan.current st)).
  apply bind_same; try (apply H; lia).
  intros; apply ok_same.
Qed.

Lemma dict_step_current st st' pv prev c :
  DictScan.step pv prev st c = Ok st' ->
  length (DictScan.current_val st') <= S (length (DictScan.current_val st)).
Proof.
  unfold DictScan.step. intros H.
  repeat match type of H with
         | context [if ?b then _ else _] => destruct b
         | context [bind ?m _] => destruct m; simpl in H
         | context [match ?k with Some _ => _ | None => _ end] =>
             destruct k; simpl in H
         end;
    inversion H; subst; simpl; rewrite ?length_app; simpl; lia.
Qed.

Lemma dict_loop_current pv content : forall prev st st',
  DictScan.loop pv prev content st = Ok st' ->
  length (DictScan.current_val st')
  <= length (DictScan.current_val st) + length content.
Proof.
  induction content as [|c content IH]; simpl; intros prev st st' H.
  - inversion H; subst. lia.
  - destruct (DictScan.step pv prev st c) as [st1| |] eqn:E; simpl in H;
      try discriminate.
    apply IH in H. apply dict_step_current in E. lia.
Qed.

Lemma dict_step_same r1 r2 prev st c :
  agree_below (S (length (DictScan.current_val st))) r1 r2 ->
  DictScan.step r1 prev st c = DictScan.step r2 prev st c
  /\ DictScan.step r1 prev st c <> NoFuel.
Proof.
  intros H. unfold DictScan.step.
  pose proof (strip_length (DictScan.current_val st)).
  repeat match goal with
         | |- context [if ?b then _ else _] => destruct b
         end; try apply ok_same.
  all: destruct (DictScan.current_key st); simpl; try apply ok_same.
  all: destruct (H (strip (DictScan.current_val st))) as [E N]; [lia|].
  all: rewrite <- E.
  all: destruct (r1 (strip (DictScan.current_val st))); simpl.
  all: split; congruence.
Qed.

Lemma dict_loop_same r1 r2 content : forall prev st,
  agree_below (S (length (DictScan.current_val st) + length content)) r1 r2 ->
  DictScan.loop r1 prev content st = DictScan.loop r2 prev content st
  /\ DictScan.loop r1 prev content st <> NoFuel.
Proof.
  induction content as [|c content IH]; simpl; intros prev st H.
  - apply ok_same.
  - destruct (dict_step_same r1 r2 prev st c) as [E N].
    { eapply agree_below_weaken; [|exact H]. lia. }
    apply bind_same; auto.
    intros st1 E1. apply IH.
    eapply agree_below_weaken; [|exact H].
    apply dict_step_current in E1. lia.
Qed.

Lemma dict_body_same r1 r2 s :
  agree_below (length s) r1 r2 ->
  DictScan.body r1 s = DictScan.body r2 s
  /\ DictScan.body r1 s <> NoFuel.
Proof.
  intros H. unfold DictScan.body.
  destruct (is_empty (strip (slice_1_m1 s))) eqn:Hc; [apply ok_same|].
  apply content_shorter in Hc.
  destruct (dict_loop_same r1 r2 (strip (slice_1_m1 s)) None DictScan.init)
    as [E N].
  { eapply agree_below_weaken; [|exact H]. simpl. lia. }
  apply bind_same; auto.
  intros st E1. apply dict_loop_current in E1. simpl in E1.
  destruct (DictScan.current_key st); [|apply ok_same].
  destruct (negb _); [|apply ok_same].
  pose proof (strip_length (DictScan.current_val st)).
  apply bind_same; try (apply H; lia).
  intros; apply ok_same.
Qed.

Lemma try_except_same {A : Type} (m1 m2 : res A) (d : A) :
  m1 = m2 /\ m1 <> NoFuel ->
  try_except m1 d = try_except m2 d /\ try_except m1 d <> NoFuel.
Proof.
  intros [<- N]. split; [reflexivity|].
  destruct m1; simpl; congruence.
Qed.

Lemma parse_array_with_same r1 r2 s :
  agree_below (length s) r1 r2 ->
  parse_array_with r1 s = parse_array_with r2 s
  /\ parse_array_with r1 s <> NoFuel.
Proof.
  intros H. unfold parse_array_with.
  destruct (try_except_same _ _ [] (array_body_same r1 r2 s H)) as [E N].
  apply bind_same; auto. intros; apply ok_same.
Qed.

Lemma parse_dict_with_same r1 r2 s :
  agree_below (length s) r1 r2 ->
  parse_dict_with r1 s = parse_dict_with r2 s
  /\ parse_dict_with r1 s <> NoFuel.
Proof.
  intros H. unfold parse_dict_with.
  destruct (try_except_same _ _ [] (dict_body_same r1 r2 s H)) as [E N].
  apply bind_same; auto. intros; apply ok_same.
Qed.

Lemma float_fuel (s : str) : float s <> NoFuel.
Proof. unfold float. destruct (py_float s); discriminate. Qed.

Lemma int_fuel (s : str) : int s <> NoFuel.
Proof. unfold int. destruct (py_int s); discriminate. Qed.

Lemma parse_value_body_same r1 r2 s :
  agree_below (length s) r1 r2 ->
  parse_value_body r1 s = parse_value_body r2 s
  /\ parse_value_body r1 s <> NoFuel.
Proof.
  intros H. unfold parse_value_body.
  assert (H' : agree_below (length (strip s)) r1 r2).
  { eapply agree_below_weaken; [apply strip_length|exact H]. }
  repeat match goal with
         | |- context [if ?b then _ else _] => destruct b
         | |- context [match re_match ?r ?t ?c with _ => _ end] =>
             destruct (re_match r t c)
         end;
    try apply ok_same;
    try (apply parse_array_with_same; exact H');
    try (apply parse_dict_with_same; exact H');
    repeat (apply bind_same;
            [reflexivity | apply float_fuel || apply int_fuel | intros ? _]);
    apply ok_same.
Qed.

(** Every budget above the length of the text gives the same outcome, and
    that outcome is not [NoFuel]. *)
Lemma parse_value_fuel_enough : forall n m s,
  length s < n -> length s < m ->
  parse_value_fuel n s = parse_value_fuel m s
  /\ parse_value_fuel n s <> NoFuel.
Proof.
  induction n as [|n IH]; intros m s Hn Hm; [lia|].
  destruct m as [|m]; [lia|]. simpl.
  apply parse_value_body_same.
  intros t Ht. apply IH; lia.
Qed.

Lemma parse_value_agree (n : nat) :
  agree_below n (parse_value_fuel n) parse_value.
Proof.
  intros t Ht. unfold parse_value. apply parse_value_fuel_enough; lia.
Qed.

(** The defining equation of [parse_value], as the source has it. *)
Lemma parse_value_unfold (s : str) :
  parse_value s = parse_value_body parse_value s.
Proof.
  unfold parse_value at 1. simpl.
  apply parse_value_body_same. apply parse_value_agree.
Qed.

(** [parse_value] returns or raises; the budget of the model plays no
    part. *)
Lemma parse_value_fuel_free (s : str) : parse_value s <> NoFuel.
Proof.
  unfold parse_value.
  apply (parse_value_fuel_enough (S (length s)) (S (length s)) s); lia.
Qed.

(* ================================================================== *)
(** * Stripping *)
(* ================================================================== *)

Lemma lstrip_by_app (p : ascii -> bool) (u : str) (c : ascii) (w : str) :
  p c = false -> lstrip_by p (u ++ c :: w) = lstrip_by p u ++ c :: w.
Proof.
  intros Hc. induction u as [|x u IH]; simpl.
  - rewrite Hc. reflexivity.
  - destruct (p x); [exact IH|reflexivity].
Qed.

Lemma rstrip_by_app (p : ascii -> bool) (a : str) (c : ascii) (t : str) :
  p c = false -> rstrip_by p (a ++ c :: t) = a ++ c :: rstrip_by p t.
Proof.
  intros Hc. unfold rstrip_by.
  rewrite rev_app_distr. simpl. rewrite <- app_assoc. simpl.
  rewrite lstrip_by_app by exact Hc.
  rewrite rev_app_distr. simpl. rewrite rev_involutive.
  rewrite <- app_assoc. reflexivity.
Qed.

Lemma rstrip_by_nil (p : ascii -> bool) : rstrip_by p [] = [].
Proof. reflexivity. Qed.

(** A text that starts and ends outside the class is left alone. *)
Lemma strip_by_fixed (p : ascii -> bool) (c : ascii) (a : str) (d : ascii) :
  p c = false -> p d = false ->
  strip_by p (c :: a ++ [d]) = c :: a ++ [d].
Proof.
  intros Hc Hd. unfold strip_by. simpl. rewrite Hc.
  change (c :: a ++ [d]) with ((c :: a) ++ [d]).
  rewrite rstrip_by_app by exact Hd. reflexivity.
Qed.




Lemma forallb_last_char (p : ascii -> bool) (s : str) :
  forallb p s = true ->
  match last_char s with None => True | Some d => p d = true end.
Proof.
  intros H. unfold last_char.
  destruct (rev s) as [|d r] eqn:E; [exact I|].
  rewrite forallb_forall in H. apply H.
  apply in_rev. rewrite E. left. reflexivity.
Qed.

(* ================================================================== *)
(** * Character classes *)
(* ================================================================== *)







(* ================================================================== *)
(** * The matcher *)
(* ================================================================== *)

Lemma startswith_app (l s : str) : startswith l (l ++ s) = true.
Proof.
  induction l as [|x l IH]; simpl; [reflexivity|].
  rewrite Ascii.eqb_refl. exact IH.
Qed.

Lemma skipn_length_app (l s : str) : skipn (length l) (l ++ s) = s.
Proof. induction l; simpl; auto. Qed.



Lemma try_down_top {A : Type} (f : nat -> option A) (lo k : nat) (r : A) :
  f (lo + k) = Some r -> try_down f lo k = Some r.
Proof. intros H. destruct k; simpl; rewrite H; reflexivity. Qed.


Lemma re_match_Lit_fail (l : str) (re : list atom) (s : str)
      (caps : list str) :
  startswith l s = false -> re_match (Lit l :: re) s caps = None.
Proof. intros H. simpl. rewrite H. reflexivity. Qed.







(* ================================================================== *)
(** * The value classifier: outcomes *)
(* ================================================================== *)

(** [parse_value] returns a value or raises [ValueError]. *)
Lemma parse_value_returns_or_raises (s : str) :
  (exists v, parse_value s = Ok v) \/ parse_value s = Raise ValueError.
Proof.
  pose proof (parse_value_fuel_free s) as N.
  destruct (parse_value s) as [v|[]|]; [left; eauto|right; reflexivity|].
  congruence.
Qed.

(** The composite parsers never raise: the bare [except] turns any
    exception of the scan into the empty composite. *)
Lemma parse_array_returns (s : str) : exists l, parse_array s = Ok (VList l).
Proof.
  unfold parse_array, parse_array_with.
  destruct (array_body_same parse_value parse_value s) as [_ N].
  { intros t _. split; [reflexivity|apply parse_value_fuel_free]. }
  destruct (ArrayScan.body parse_value s) as [l|e|]; simpl; eauto.
  congruence.
Qed.

Lemma parse_dict_returns (s : str) : exists d, parse_dict s = Ok (VDict d).
Proof.
  unfold parse_dict, parse_dict_with.
  destruct (dict_body_same parse_value parse_value s) as [_ N].
  { intros t _. split; [reflexivity|apply parse_value_fuel_free]. }
  destruct (DictScan.body parse_value s) as [l|e|]; simpl; eauto.
  congruence.
Qed.

(* ================================================================== *)
(** * Claims on the classifier and the array parser *)
(* ================================================================== *)

(** C1: the classifier is not total on the code.  A text that matches the
    [Color] pattern with a component that is no number, here [1.2.3],
    reaches [float], which raises [ValueError]; [parse_value] has no
    handler, so the exception leaves it.  The same literal with proper
    components is classified, and so is the empty text. *)
Theorem C1_parse_value_raises :
  parse_value "Color(1.2.3, 0, 0, 1)" = Raise ValueError
  /\ parse_value "Vector2(-, 2)" = Raise ValueError
  /\ parse_value "Color(1.5, 0, 0, 1)" = Ok (Color (3 # 2) 0 0 1)
  /\ parse_value [] = Ok (VStr []).
Proof. repeat split; vm_compute; reflexivity. Qed.

(** C2, as the claim states it, fails: the unterminated literal of the
    claim does not give the empty array. *)
Lemma C2_unterminated_not_empty :
  ~ (parse_value "[1, 2" = Ok (VList [])).
Proof. vm_compute. discriminate. Qed.

(** C2, amended: the array parser never raises and always returns an
    array; it does not detect malformed literals, which are scanned like
    any other text: the literal without its closing bracket loses its last
    character to the slice and keeps the element before the comma, an
    unclosed inner bracket keeps the commas after it inside one element,
    and an unterminated string runs to the end of the body. *)
Theorem C2_parse_array_never_raises :
  (forall value_str, exists l, parse_array value_str = Ok (VList l))
  /\ parse_value "[1, 2" = Ok (VList [VInt 1])
  /\ parse_array "[1, 2" = Ok (VList [VInt 1])
  /\ parse_array "[[1, 2, 3]" = Ok (VList [VList [VInt 1; VInt 2]])
  /\ parse_array (lit "[1, " ++ dquote :: lit "a, 2]")
     = Ok (VList [VInt 1; VStr (dquote :: lit "a, 2")]).
Proof.
  split; [exact parse_array_returns|].
  repeat split; vm_compute; reflexivity.
Qed.



(* ================================================================== *)
(** * Scalars *)
(* ================================================================== *)












(* ================================================================== *)
(** * The array parser splits at top-level commas *)
(* ================================================================== *)

Lemma toggle_agrees (char : ascii) (current : str) (in_string : bool) :
  (if Ascii.eqb char dquote
      && (is_empty current
          || negb (match last_char current with
                   | Some c => Ascii.eqb c backslash
                   | None => false
                   end))
   then negb in_string else in_string)
  = xorb in_string (Ascii.eqb char dquote && negb (escaped_after current)).
Proof.
  unfold escaped_after.
  destruct current as [|x current]; simpl is_empty.
  - unfold last_char. simpl.
    destruct (Ascii.eqb char dquote), in_string; reflexivity.
  - simpl orb.
    destruct (Ascii.eqb char dquote), in_string,
      (match last_char (x :: current) with
       | Some c => Ascii.eqb c backslash
       | None => false
       end); reflexivity.
Qed.

Lemma map_res_app {A B : Type} (f : A -> res B) (l1 l2 : list A) :
  map_res f (l1 ++ l2)
  = (ys1 <- map_res f l1 ;; ys2 <- map_res f l2 ;; Ok (ys1 ++ ys2)).
Proof.
  induction l1 as [|x l1 IH]; simpl.
  - destruct (map_res f l2); reflexivity.
  - destruct (f x); simpl; try reflexivity.
    rewrite IH. destruct (map_res f l1); simpl; try reflexivity.
    destruct (map_res f l2); reflexivity.
Qed.

(** The scan of the source is the splitting followed by the
    classification of the trimmed fragments, in order. *)
Lemma array_loop_split (pv : str -> res Value) (content : str) :
  forall st,
    res_map (fun st' => (ArrayScan.items st', ArrayScan.current st'))
            (ArrayScan.loop pv content st)
    = (vs <- map_res pv
               (map strip
                    (fst (split_top content (ArrayScan.depth st)
                                    (ArrayScan.in_string st)
                                    (ArrayScan.current st)))) ;;
       Ok (ArrayScan.items st ++ vs,
           snd (split_top content (ArrayScan.depth st)
                          (ArrayScan.in_string st) (ArrayScan.current st)))).
Proof.
  induction content as [|char rest IH]; intros st.
  - simpl. rewrite app_nil_r. reflexivity.
  - cbn [ArrayScan.loop split_top]. unfold ArrayScan.step.
    rewrite toggle_agrees.
    set (i' := xorb (ArrayScan.in_string st) _).
    unfold bracket.
    destruct i'; cbn [negb].
    + cbn [bind]. rewrite IH. reflexivity.
    + destruct (char_in char "[{") eqn:Eo.
      { assert (Ascii.eqb char "," = false) as ->.
        { destruct (Ascii.eqb_spec char ","); [subst; discriminate|easy]. }
        cbn [andb bind]. rewrite IH. reflexivity. }
      destruct (char_in char "]}") eqn:Ec.
      { assert (Ascii.eqb char "," = false) as ->.
        { destruct (Ascii.eqb_spec char ","); [subst; discriminate|easy]. }
        cbn [andb bind]. rewrite IH. reflexivity. }
      destruct (Ascii.eqb char "," && (ArrayScan.depth st =? 0)%Z).
      * destruct (split_top rest (ArrayScan.depth st) false []) as [fs last]
          eqn:Es.
        cbn [fst snd map map_res].
        destruct (pv (strip (ArrayScan.current st))) as [v| |];
          cbn [bind res_map]; try reflexivity.
        fold (res_map (fun st' => (ArrayScan.items st', ArrayScan.current st'))
                      (ArrayScan.loop pv rest
                         (ArrayScan.mk (ArrayScan.items st ++ [v])
                                       (ArrayScan.depth st) [] false))).
        rewrite IH. cbn [ArrayScan.items ArrayScan.depth ArrayScan.in_string
                         ArrayScan.current].
        rewrite Es. cbn [fst snd].
        destruct (map_res pv (map strip fs)); cbn [bind]; try reflexivity.
        rewrite <- app_assoc. reflexivity.
      * cbn [bind]. rewrite IH. cbn [ArrayScan.items ArrayScan.depth
                                     ArrayScan.in_string ArrayScan.current].
        rewrite Z.add_0_r. reflexivity.
Qed.

Lemma array_body_split (pv : str -> res Value) (value_str : str) :
  ArrayScan.body pv value_str
  = map_res pv (elements (strip (slice_1_m1 value_str))).
Proof.
  unfold ArrayScan.body, elements.
  set (content := strip (slice_1_m1 value_str)).
  destruct (is_empty content) eqn:Ee.
  { destruct content; [reflexivity|discriminate]. }
  pose proof (array_loop_split pv content ArrayScan.init) as L.
  cbn [ArrayScan.items ArrayScan.depth ArrayScan.in_string ArrayScan.current
       ArrayScan.init] in L.
  destruct (split_top content 0 false []) as [fs last].
  cbn [fst snd] in L. rewrite map_res_app.
  destruct (ArrayScan.loop pv content ArrayScan.init) as [st| |];
    cbn [res_map bind] in L |- *;
    destruct (map_res pv (map strip fs)) as [vs| |];
    cbn [bind app] in L |- *; try congruence.
  inversion L as [[Hi Hc]].
  destruct (is_empty (strip (ArrayScan.current st))); cbn [negb map_res bind].
  - rewrite app_nil_r. reflexivity.
  - destruct (pv (strip (ArrayScan.current st))); reflexivity.
Qed.

(** The fragments, joined by commas, are the body again: the splitting
    drops commas and nothing else. *)
Lemma split_top_join (content : str) : forall depth in_string current,
  join "," (fst (split_top content depth in_string current)
            ++ [snd (split_top content depth in_string current)])
  = current ++ content.
Proof.
  induction content as [|char rest IH]; intros depth in_string current.
  - simpl. rewrite app_nil_r. reflexivity.
  - cbn [split_top].
    set (i' := xorb in_string _).
    destruct i'.
    + rewrite IH. rewrite <- app_assoc. reflexivity.
    + destruct (Ascii.eqb char "," && (depth =? 0)%Z) eqn:E.
      * apply andb_true_iff in E. destruct E as [E _].
        apply Ascii.eqb_eq in E. subst char.
        specialize (IH depth false []).
        destruct (split_top rest depth false []) as [fs last].
        cbn [fst snd] in *. cbn [app join].
        destruct (fs ++ [last]) eqn:El.
        { destruct fs; discriminate El. }
        rewrite IH. reflexivity.
      * rewrite IH. rewrite <- app_assoc. reflexivity.
Qed.

Lemma lstrip_by_all (p : ascii -> bool) (s : str) :
  forallb p s = true -> lstrip_by p s = [].
Proof.
  induction s as [|c s IH]; simpl; [reflexivity|].
  intros H. apply andb_true_iff in H. destruct H as [-> H]. auto.
Qed.

Lemma strip_blank (ws : str) : forallb isspace ws = true -> strip ws = [].
Proof.
  intros H. unfold strip, strip_by. rewrite lstrip_by_all by exact H.
  reflexivity.
Qed.

Lemma slice_1_m1_wrap (a : ascii) (s : str) (b : ascii) :
  slice_1_m1 (a :: s ++ [b]) = s.
Proof. unfold slice_1_m1. simpl. apply removelast_last. Qed.

(** C4: the array parser classifies, in order, the trimmed fragments that
    lie between the commas at depth 0 outside quoted strings (the last
    fragment only when it is not blank); those fragments joined by commas
    give the body back, so nothing but such commas splits it.  The nested
    literal of the claim parses as stated, and a body of blanks only gives
    the empty array. *)
Theorem C4_array_splits_at_top_level_commas (value_str ws : str) :
  forallb isspace ws = true ->
  parse_array value_str
  = (l <- try_except
            (map_res parse_value (elements (strip (slice_1_m1 value_str))))
            [] ;;
     Ok (VList l))
  /\ join "," (fst (split_top (strip (slice_1_m1 value_str)) 0%Z false [])
               ++ [snd (split_top (strip (slice_1_m1 value_str)) 0%Z false [])])
     = strip (slice_1_m1 value_str)
  /\ parse_value (lit "[1, [2, 3], " ++ dquote :: lit "a,b" ++ dquote :: lit "]")
     = Ok (VList [VInt 1; VList [VInt 2; VInt 3]; VStr "a,b"])
  /\ parse_array ("["%char :: ws ++ lit "]") = Ok (VList []).
Proof.
  intros Hws. split; [|split; [|split]].
  - unfold parse_array, parse_array_with. rewrite array_body_split.
    reflexivity.
  - apply split_top_join.
  - vm_compute. reflexivity.
  - unfold parse_array, parse_array_with, ArrayScan.body.
    change (lit "]") with ["]"%char].
    rewrite slice_1_m1_wrap, strip_blank by exact Hws. reflexivity.
Qed.

Lemma C4_array_splits_at_top_level_commas_witness :
  parse_array "[   ]" = Ok (VList []).
Proof.
  assert (H : forallb isspace (lit "   ") = true) by (vm_compute; reflexivity).
  pose proof (C4_array_splits_at_top_level_commas (lit "[7, 8]") (lit "   ") H)
    as T.
  destruct T as (_ & _ & _ & T). exact T.
Defined.

(* ================================================================== *)
(** * Color and Vector2 literals with text after them *)
(* ================================================================== *)














(* ================================================================== *)
(** * More on stripping *)
(* ================================================================== *)

Lemma forallb_rev (p : ascii -> bool) (s : str) :
  forallb p (rev s) = forallb p s.
Proof.
  induction s as [|c s IH]; simpl; [reflexivity|].
  rewrite forallb_app, IH. simpl. rewrite andb_true_r. apply andb_comm.
Qed.



Lemma rstrip_by_all (p : ascii -> bool) (s : str) :
  forallb p s = true -> rstrip_by p s = [].
Proof.
  intros H. unfold rstrip_by.
  rewrite lstrip_by_all by (rewrite forallb_rev; exact H). reflexivity.
Qed.

(** A text is all inside the class, or has a first character outside it. *)
Lemma first_outside (p : ascii -> bool) (s : str) :
  forallb p s = true
  \/ exists u c w, s = u ++ c :: w /\ forallb p u = true /\ p c = false.
Proof.
  induction s as [|x s IH]; [left; reflexivity|].
  destruct (p x) eqn:Hx.
  - destruct IH as [IH|(u & c & w & -> & Hu & Hc)].
    + left. simpl. rewrite Hx. exact IH.
    + right. exists (x :: u), c, w. simpl. rewrite Hx. auto.
  - right. exists [], x, s. auto.
Qed.

Lemma lstrip_by_idem (p : ascii -> bool) (s : str) :
  lstrip_by p (lstrip_by p s) = lstrip_by p s.
Proof.
  induction s as [|c s IH]; simpl; [reflexivity|].
  destruct (p c) eqn:Hc; [exact IH|]. simpl. rewrite Hc. reflexivity.
Qed.

Lemma rstrip_by_idem (p : ascii -> bool) (s : str) :
  rstrip_by p (rstrip_by p s) = rstrip_by p s.
Proof.
  unfold rstrip_by. rewrite rev_involutive, lstrip_by_idem. reflexivity.
Qed.

Lemma strip_by_comm (p : ascii -> bool) (s : str) :
  lstrip_by p (rstrip_by p s) = rstrip_by p (lstrip_by p s).
Proof.
  destruct (first_outside p s) as [H|(u & c & w & -> & Hu & Hc)].
  - rewrite (rstrip_by_all p s H), (lstrip_by_all p s H). reflexivity.
  - rewrite rstrip_by_app by exact Hc.
    rewrite !lstrip_by_app by exact Hc.
    rewrite lstrip_by_all by exact Hu. simpl.
    change (c :: w) with ([] ++ c :: w).
    rewrite rstrip_by_app by exact Hc. reflexivity.
Qed.


(** The right end of a text trimmed is a text the original starts with. *)
Lemma rstrip_by_prefix (p : ascii -> bool) (s : str) :
  exists t, s = rstrip_by p s ++ t /\ forallb p t = true.
Proof.
  unfold rstrip_by.
  destruct (first_outside p (rev s)) as [H|(u & c & w & E & Hu & Hc)].
  - rewrite lstrip_by_all by exact H. exists s. split; [reflexivity|].
    rewrite <- forallb_rev. exact H.
  - rewrite E, lstrip_by_app, lstrip_by_all by assumption. simpl.
    exists (rev u). split; [|rewrite forallb_rev; exact Hu].
    rewrite <- (rev_involutive s), E, rev_app_distr. simpl.
    reflexivity.
Qed.

Lemma forallb_rstrip (q p : ascii -> bool) (s : str) :
  forallb q s = true -> forallb q (rstrip_by p s) = true.
Proof.
  intros H. destruct (rstrip_by_prefix p s) as (t & E & _).
  rewrite E, forallb_app in H. apply andb_true_iff in H. tauto.
Qed.



(* ================================================================== *)
(** * The map parser on one entry *)
(* ================================================================== *)




Lemma plain_facts (c : ascii) :
  plain c = true ->
  Ascii.eqb c dquote = false /\ char_in c "[{" = false
  /\ char_in c "]}" = false /\ Ascii.eqb c "," = false.
Proof.
  intros H.
  assert (F : forall x, plain x = false -> Ascii.eqb c x = false).
  { intros x Hx. destruct (Ascii.eqb_spec c x); [congruence|reflexivity]. }
  unfold char_in. cbn [existsb lit list_ascii_of_string].
  rewrite (F dquote), (F "["%char), (F "{"%char), (F "]"%char),
    (F "}"%char), (F ","%char) by reflexivity.
  auto.
Qed.





Lemma inside_key_notquote (k : str) :
  forallb inside_key k = true ->
  forallb (fun c => negb (Ascii.eqb c dquote)) k = true
  /\ forallb (fun c => negb (Ascii.eqb dquote c)) k = true.
Proof.
  intros H. rewrite forallb_forall in H.
  split; apply forallb_forall; intros c Hc; specialize (H c Hc);
    unfold inside_key in H; apply andb_true_iff in H; destruct H as [H _].
  - exact H.
  - rewrite Ascii.eqb_sym. exact H.
Qed.







(* ================================================================== *)
(** * The section extractor *)
(* ================================================================== *)

Lemma startswith_true (m s : str) :
  startswith m s = true <-> exists post, s = m ++ post.
Proof.
  split.
  - revert s. induction m as [|x m IH]; intros s H.
    + exists s. reflexivity.
    + destruct s as [|y s]; [discriminate H|]. simpl in H.
      apply andb_true_iff in H. destruct H as [E H].
      apply Ascii.eqb_eq in E. subst y.
      destruct (IH s H) as [post ->]. exists post. reflexivity.
  - intros [post ->]. apply startswith_app.
Qed.

Lemma run_isany (s : str) : run isany s = length s.
Proof. induction s; simpl; congruence. Qed.

Lemma re_match_resource (s : str) :
  re_match resource_re s []
  = if startswith marker s then Some [skipn (length marker) s] else None.
Proof.
  unfold resource_re. cbn [re_match]. fold marker.
  destruct (startswith marker s); [|reflexivity].
  apply try_down_top. rewrite run_isany. cbn [Nat.add].
  rewrite firstn_all. reflexivity.
Qed.

Lemma re_search_resource_none (s : str) :
  re_search resource_re s = None <-> ~ contains marker s.
Proof.
  induction s as [|c s IH].
  - split.
    + intros _ (pre & post & E).
      destruct pre; discriminate E.
    + intros _. reflexivity.
  - cbn [re_search]. rewrite re_match_resource.
    destruct (startswith marker (c :: s)) eqn:Es.
    + split; [discriminate|]. intros H. exfalso. apply H.
      apply startswith_true in Es. destruct Es as [post E].
      exists [], post. exact E.
    + rewrite IH. split; intros H (pre & post & E); apply H.
      * destruct pre as [|x pre].
        { exfalso. change ([] ++ marker ++ post) with (marker ++ post) in E.
          rewrite E, startswith_app in Es.
          discriminate Es. }
        inversion E; subst. exists pre, post. reflexivity.
      * exists (c :: pre), post. rewrite E. reflexivity.
Qed.

Lemma re_search_hit (re : list atom) (s : str) (g : list str) :
  re_match re s [] = Some g -> re_search re s = Some g.
Proof. intros H. destruct s; simpl; rewrite H; reflexivity. Qed.

Lemma re_search_resource_first (pre : str) : forall s post,
  first_occurrence marker s pre post ->
  re_search resource_re s = Some [post].
Proof.
  induction pre as [|c pre IH]; intros s post [E Hmin].
  - subst s. change ([] ++ marker ++ post) with (marker ++ post).
    apply re_search_hit. rewrite re_match_resource.
    rewrite startswith_app, skipn_length_app. reflexivity.
  - subst s. cbn [app re_search]. rewrite re_match_resource.
    destruct (startswith marker (c :: pre ++ marker ++ post)) eqn:Es.
    + apply startswith_true in Es. destruct Es as [post' E'].
      specialize (Hmin [] post' E'). simpl in Hmin. lia.
    + apply IH. split; [reflexivity|].
      intros pre' post' E'.
      specialize (Hmin (c :: pre') post' (f_equal (cons c) E')).
      simpl in Hmin. lia.
Qed.

(** C6: [parse_tres_file] returns [None], and does not raise, exactly
    when the text holds no [[resource]] marker; when it holds one, the
    document is the one built from everything after the first
    occurrence. *)
Theorem C6_section_extractor (content pre post : str) :
  (parse_tres_file content = Ok None <-> ~ contains marker content)
  /\ (first_occurrence marker content pre post ->
      parse_tres_file content
      = (data <- parse_section post ;; Ok (Some data))).
Proof.
  split.
  - rewrite <- re_search_resource_none. unfold parse_tres_file.
    destruct (re_search resource_re content) as [m|].
    + split; [|discriminate].
      destruct (parse_section (group 1 m)); discriminate.
    + split; reflexivity.
  - intros H. unfold parse_tres_file.
    rewrite (re_search_resource_first pre content post H). reflexivity.
Qed.

Lemma C6_section_extractor_witness :
  parse_tres_file (lit "[gd_resource][resource]hp = 1[resource]")
  = (data <- parse_section "hp = 1[resource]" ;; Ok (Some data)).
Proof.
  refine (proj2 (C6_section_extractor
                   (lit "[gd_resource][resource]hp = 1[resource]")
                   (lit "[gd_resource]") (lit "hp = 1[resource]")) _).
  split; [reflexivity|].
  intros pre' post' E.
  do 13 (destruct pre' as [|? pre']; [discriminate E|]).
  simpl. lia.
Defined.

(* ================================================================== *)
(** * Assignments and the document *)
(* ================================================================== *)

Lemma str_eqb_eq (a b : str) : str_eqb a b = true <-> a = b.
Proof.
  revert b. induction a as [|x a IH]; intros [|y b]; simpl;
    try (split; congruence).
  rewrite andb_true_iff, Ascii.eqb_eq, IH.
  split; [intros [-> ->]; reflexivity|intros H; inversion H; auto].
Qed.

Lemma str_eqb_refl (a : str) : str_eqb a a = true.
Proof. apply str_eqb_eq. reflexivity. Qed.

Lemma dict_get_set_same (k : str) (v : Value) (d : dict) :
  dict_get k (dict_set k v d) = Some v.
Proof.
  induction d as [|[k' v'] d IH]; simpl.
  - rewrite str_eqb_refl. reflexivity.
  - destruct (str_eqb k' k) eqn:E; simpl; rewrite E; auto.
Qed.

Lemma dict_get_set_other (k k0 : str) (v : Value) (d : dict) :
  str_eqb k0 k = false -> dict_get k (dict_set k0 v d) = dict_get k d.
Proof.
  intros H. induction d as [|[k' v'] d IH]; simpl.
  - rewrite H. reflexivity.
  - destruct (str_eqb k' k0) eqn:E; simpl.
    + apply str_eqb_eq in E. subst k'. rewrite H. reflexivity.
    + destruct (str_eqb k' k); auto.
Qed.

Lemma keys_dict_set (k : str) (v : Value) (d : dict) :
  map fst (dict_set k v d)
  = if seen k (map fst d) then map fst d else map fst d ++ [k].
Proof.
  unfold seen. induction d as [|[k' v'] d IH]; simpl; [reflexivity|].
  destruct (str_eqb k' k); simpl; [reflexivity|].
  rewrite IH. destruct (existsb _ _); reflexivity.
Qed.

Lemma section_step_assignment (data : dict) (line : str) :
  section_step data line
  = match assignment_of_line line with
    | Some (k, raw) => v <- parse_value raw ;; Ok (dict_set k v data)
    | None => Ok data
    end.
Proof.
  unfold section_step, assignment_of_line. cbv zeta.
  destruct (_ || _); [reflexivity|].
  destruct (re_match assignment_re (strip line) []); reflexivity.
Qed.

Lemma section_loop_assemble (lines : list str) : forall data,
  section_loop lines data = assemble (assignments lines) data.
Proof.
  induction lines as [|line lines IH]; intros data; [reflexivity|].
  cbn [section_loop assignments flat_map]. rewrite section_step_assignment.
  fold (assignments lines).
  destruct (assignment_of_line line) as [[k raw]|]; cbn [app bind assemble].
  - destruct (parse_value raw); cbn [bind]; auto.
  - apply IH.
Qed.

Lemma assemble_spec (kvs : list (str * str)) : forall d0 data,
  assemble kvs d0 = Ok data ->
  map fst data = map fst d0 ++ first_seen (map fst d0) (map fst kvs)
  /\ forall k,
      match last_raw k kvs with
      | Some raw => exists v, parse_value raw = Ok v /\ dict_get k data = Some v
      | None => dict_get k data = dict_get k d0
      end.
Proof.
  induction kvs as [|[k0 raw0] rest IH]; intros d0 data H.
  - inversion H; subst. simpl. rewrite app_nil_r. auto.
  - cbn [assemble] in H.
    destruct (parse_value raw0) as [v0| |] eqn:Ev; try discriminate H.
    cbn [bind] in H. destruct (IH _ _ H) as [Hk Hg]. split.
    + rewrite Hk, keys_dict_set. cbn [map fst first_seen].
      destruct (seen k0 (map fst d0)); [reflexivity|].
      rewrite <- app_assoc. reflexivity.
    + intros k. specialize (Hg k). cbn [last_raw].
      destruct (last_raw k rest); [exact Hg|].
      rewrite Hg. destruct (str_eqb k0 k) eqn:E.
      * apply str_eqb_eq in E. subst k0. exists v0.
        rewrite dict_get_set_same. auto.
      * apply dict_get_set_other. exact E.
Qed.

Lemma assemble_returns (kvs : list (str * str)) : forall d0,
  Forall (fun kv => exists v, parse_value (snd kv) = Ok v) kvs ->
  exists data, assemble kvs d0 = Ok data.
Proof.
  induction kvs as [|[k raw] rest IH]; intros d0 H.
  - exists d0. reflexivity.
  - inversion H as [|? ? [v Ev] Hrest]; subst. simpl in Ev.
    cbn [assemble]. rewrite Ev. cbn [bind]. apply IH. exact Hrest.
Qed.

(** C7: the document of a section lists every assigned key once, where it
    is first met, and maps it to the value parsed from the last line that
    assigns it; a key no line assigns is absent.  The document exists as
    soon as every raw value is classified. *)
Theorem C7_last_write_wins (text : str) (data : dict) :
  let kvs := assignments (split_on newline (strip text)) in
  (Forall (fun kv => exists v, parse_value (snd kv) = Ok v) kvs ->
   exists data', parse_section text = Ok data')
  /\ (parse_section text = Ok data ->
      map fst data = first_seen [] (map fst kvs)
      /\ forall k,
          match last_raw k kvs with
          | Some raw =>
              exists v, parse_value raw = Ok v /\ dict_get k data = Some v
          | None => dict_get k data = None
          end).
Proof.
  intros kvs. unfold parse_section. rewrite section_loop_assemble.
  fold kvs. split.
  - apply assemble_returns.
  - intros H. apply (assemble_spec kvs [] data H).
Qed.

Lemma C7_last_write_wins_witness :
  map fst [(lit "hp", VInt 2); (lit "name", VStr "Slime")]
  = first_seen [] [lit "hp"; lit "name"; lit "hp"]
  /\ exists v, parse_value "2" = Ok v
               /\ dict_get "hp" [(lit "hp", VInt 2); (lit "name", VStr "Slime")]
                  = Some v.
Proof.
  assert (H : parse_section two_hp_lines
              = Ok [(lit "hp", VInt 2); (lit "name", VStr "Slime")])
    by (vm_compute; reflexivity).
  destruct (C7_last_write_wins two_hp_lines
              [(lit "hp", VInt 2); (lit "name", VStr "Slime")]) as [_ T].
  destruct (T H) as [Tk Tg].
  split; [exact Tk|].
  exact (Tg (lit "hp")).
Defined.

(** The section body of section 8 of the specification, end to end. *)
Example parse_section_end_to_end :
  parse_section
    (lit "hp = 100" ++ newline :: lit "name = " ++ dquote :: lit "Slime"
     ++ dquote :: newline :: lit "tags = [" ++ dquote :: lit "weak"
     ++ dquote :: lit ", " ++ dquote :: lit "slow" ++ dquote :: lit "]"
     ++ [newline])
  = Ok [(lit "hp", VInt 100); (lit "name", VStr "Slime");
        (lit "tags", VList [VStr "weak"; VStr "slow"])].
Proof. vm_compute. reflexivity. Qed.

(* ================================================================== *)
(** * The path rewrite *)
(* ================================================================== *)

Lemma occurs_cons (old : str) (c : ascii) (s : str) :
  occurs old (c :: s) = false ->
  startswith old (c :: s) = false /\ occurs old s = false.
Proof. cbn [occurs]. intros H. apply orb_false_iff in H. exact H. Qed.

Lemma replace_fuel_absent (old new : str) : forall n s,
  length s <= n -> occurs old s = false -> replace_fuel n old new s = s.
Proof.
  induction n as [|n IH]; intros s Hn Ho.
  - destruct s; [reflexivity|simpl in Hn; lia].
  - destruct s as [|c s]; [reflexivity|].
    apply occurs_cons in Ho. destruct Ho as [Hs Ho].
    cbn [replace_fuel]. rewrite Hs. f_equal.
    apply IH; [simpl in Hn; lia|exact Ho].
Qed.

Lemma replace_fuel_char (a b : ascii) : forall n s,
  length s <= n ->
  replace_fuel n [a] [b] s = map (fun c => if Ascii.eqb c a then b else c) s.
Proof.
  induction n as [|n IH]; intros s Hn.
  - destruct s; [reflexivity|simpl in Hn; lia].
  - destruct s as [|c s]; [reflexivity|].
    cbn [replace_fuel startswith map length skipn].
    rewrite andb_true_r, (Ascii.eqb_sym a c).
    destruct (Ascii.eqb c a); cbn [app]; f_equal;
      apply IH; simpl in Hn; lia.
Qed.

(** Where [res://] stands at the front of the path only, or nowhere, the
    code and the claim agree. *)
Lemma convert_path_prefix_only (p : str) :
  occurs "res://" (strip_prefix "res://" p) = false ->
  convert_path p = convert_path_claimed p.
Proof.
  intros H. unfold convert_path, convert_path_claimed, normalize_separators.
  destruct p as [|c p]; [reflexivity|]. cbn [is_empty].
  change (lit "/") with ["/"%char].
  unfold replace at 1. rewrite replace_fuel_char by lia.
  f_equal. unfold replace, strip_prefix in *.
  destruct (startswith (lit "res://") (c :: p)) eqn:Es.
  - apply startswith_true in Es. destruct Es as [post E].
    rewrite E in *. rewrite skipn_length_app in *.
    rewrite length_app.
    change (length (lit "res://") + length post) with (S (5 + length post)).
    cbn [replace_fuel]. destruct (lit "res://" ++ post) eqn:Ep.
    { discriminate Ep. }
    rewrite <- Ep, startswith_app, skipn_length_app. cbn [app].
    apply replace_fuel_absent; [lia|exact H].
  - apply replace_fuel_absent; [lia|exact H].
Qed.

(** C8: on the code the rewrite is not a removal of the prefix.
    [str.replace] drops every occurrence of [res://], so a path that
    holds it after its first character loses it there, where the claim
    leaves such characters alone.  Backslashes become slashes and the
    empty path stays empty, as claimed. *)
Theorem C8_convert_path_drops_inner_occurrence :
  convert_path "ui/res://icon.png" = lit "ui/icon.png"
  /\ convert_path_claimed "ui/res://icon.png" = lit "ui/res://icon.png"
  /\ convert_path "res://res://a" = lit "a"
  /\ convert_path_claimed "res://res://a" = lit "res://a"
  /\ convert_path (lit "res://art" ++ backslash :: lit "hero.png")
     = lit "art/hero.png"
  /\ convert_path [] = [].
Proof. repeat split; vm_compute; reflexivity. Qed.

(* ================================================================== *)
(** * What a match tells about the text *)
(* ================================================================== *)

Lemma try_down_inv {A : Type} (f : nat -> option A) (lo : nat) : forall k r,
  try_down f lo k = Some r -> exists n, lo <= n <= lo + k /\ f n = Some r.
Proof.
  induction k as [|k IH]; intros r H; cbn [try_down] in H.
  - destruct (f (lo + 0)) eqn:E; [|discriminate H].
    inversion H; subst. exists (lo + 0). split; [lia|exact E].
  - destruct (f (lo + S k)) eqn:E.
    + inversion H; subst. exists (lo + S k). split; [lia|exact E].
    + destruct (IH r H) as (n & Hn & En). exists n. split; [lia|exact En].
Qed.

Lemma firstn_run (p : ascii -> bool) : forall n s,
  n <= run p s -> forallb p (firstn n s) = true /\ length (firstn n s) = n.
Proof.
  induction n as [|n IH]; intros s H; [auto|].
  destruct s as [|c s]; [simpl in H; lia|].
  simpl in H. destruct (p c) eqn:Hc; [|lia].
  destruct (IH s) as [F L]; [lia|].
  simpl. rewrite Hc, F, L. auto.
Qed.

Lemma re_match_Lit_inv (l : str) (re : list atom) (u : str)
      (caps : list str) g :
  re_match (Lit l :: re) u caps = Some g ->
  exists b, u = l ++ b /\ re_match re b caps = Some g.
Proof.
  cbn [re_match]. destruct (startswith l u) eqn:E; [|discriminate].
  apply startswith_true in E. destruct E as [b ->].
  rewrite skipn_length_app. eauto.
Qed.

Lemma re_match_Star_inv p (re : list atom) (u : str) (caps : list str) g :
  re_match (Star p :: re) u caps = Some g ->
  exists a b, u = a ++ b /\ forallb p a = true
              /\ re_match re b caps = Some g.
Proof.
  cbn [re_match]. intros H.
  apply try_down_inv in H. destruct H as (n & Hn & E).
  destruct (firstn_run p n u) as [F _]; [lia|].
  exists (firstn n u), (skipn n u).
  rewrite firstn_skipn. auto.
Qed.




(* ================================================================== *)
(** * The numeric branches never raise *)
(* ================================================================== *)



Lemma last_char_class (p : ascii -> bool) (c : ascii) (r : str) :
  forallb p (c :: r) = true ->
  exists d, last_char (c :: r) = Some d /\ p d = true.
Proof.
  intros H. pose proof (forallb_last_char p (c :: r) H) as L.
  unfold last_char in *.
  destruct (rev (c :: r)) as [|d t] eqn:E; [|eauto].
  apply (f_equal (@length ascii)) in E. rewrite length_rev in E.
  discriminate E.
Qed.








(** The fallback: a text that passes none of the checks comes back
    trimmed, as a string; the empty text is such a text. *)
Lemma parse_value_fallback (s : str) :
  str_eqb (strip s) "true" = false ->
  str_eqb (strip s) "false" = false ->
  str_eqb (strip s) "null" = false ->
  str_eqb (strip s) "nil" = false ->
  re_match color_re (strip s) [] = None ->
  re_match vec2_re (strip s) [] = None ->
  startswith [dquote] (strip s) && endswith [dquote] (strip s) = false ->
  startswith "[" (strip s) = false ->
  startswith "{" (strip s) = false ->
  re_match int_re (strip s) [] = None ->
  re_match float_re (strip s) [] = None ->
  parse_value s = Ok (VStr (strip s)).
Proof.
  intros H1 H2 H3 H4 H5 H6 H7 H8 H9 H10 H11.
  rewrite parse_value_unfold. unfold parse_value_body. cbv zeta.
  rewrite H1, H2, H3, H4, H5, H6, H7, H8, H9, H10, H11. reflexivity.
Qed.

(* ================================================================== *)
(** * Further properties of the classifier *)
(* ================================================================== *)

Lemma strip_by_idem (p : ascii -> bool) (s : str) :
  strip_by p (strip_by p s) = strip_by p s.
Proof.
  unfold strip_by.
  rewrite strip_by_comm, lstrip_by_idem, rstrip_by_idem. reflexivity.
Qed.

Lemma strip_idem (s : str) : strip (strip s) = strip s.
Proof. apply strip_by_idem. Qed.

Lemma lstrip_by_app_all (p : ascii -> bool) (ws x : str) :
  forallb p ws = true -> lstrip_by p (ws ++ x) = lstrip_by p x.
Proof.
  induction ws as [|c ws IH]; simpl; [reflexivity|].
  intros H. apply andb_true_iff in H. destruct H as [-> H]. auto.
Qed.

Lemma rstrip_by_app_all (p : ascii -> bool) (x ws : str) :
  forallb p ws = true -> rstrip_by p (x ++ ws) = rstrip_by p x.
Proof.
  intros H. unfold rstrip_by. rewrite rev_app_distr.
  rewrite lstrip_by_app_all by (rewrite forallb_rev; exact H).
  reflexivity.
Qed.

Lemma strip_padding (ws s ws' : str) :
  forallb isspace ws = true -> forallb isspace ws' = true ->
  strip (ws ++ s ++ ws') = strip s.
Proof.
  intros H H'. unfold strip, strip_by.
  rewrite lstrip_by_app_all by exact H.
  rewrite <- !strip_by_comm.
  rewrite rstrip_by_app_all by exact H'. reflexivity.
Qed.

Lemma parse_value_body_strip (rec : str -> res Value) (s : str) :
  parse_value_body rec (strip s) = parse_value_body rec s.
Proof. unfold parse_value_body. rewrite strip_idem. reflexivity. Qed.

(** The classifier sees the trimmed text only: blanks before and after a
    text never change its classification. *)
Theorem parse_value_ignores_padding (ws s ws' : str) :
  forallb isspace ws = true -> forallb isspace ws' = true ->
  parse_value (ws ++ s ++ ws') = parse_value s.
Proof.
  intros H H'.
  rewrite (parse_value_unfold (ws ++ s ++ ws')), (parse_value_unfold s).
  rewrite <- (parse_value_body_strip _ (ws ++ s ++ ws')).
  rewrite <- (parse_value_body_strip _ s).
  rewrite strip_padding by assumption. reflexivity.
Qed.

Lemma parse_value_ignores_padding_witness :
  parse_value (lit "  " ++ lit "[1, 2]" ++ lit " ") = parse_value "[1, 2]".
Proof.
  apply (parse_value_ignores_padding (lit "  ") (lit "[1, 2]") (lit " "));
    vm_compute; reflexivity.
Defined.

Lemma endswith_snoc (c : ascii) (s : str) : endswith [c] (s ++ [c]) = true.
Proof.
  unfold endswith. rewrite rev_app_distr. simpl.
  rewrite Ascii.eqb_refl. reflexivity.
Qed.

(** Any text between two double quotes is classified as that text,
    unchanged: nothing inside is decoded or inspected, not even further
    double quotes. *)
Theorem parse_value_quoted (u : str) :
  parse_value (dquote :: u ++ [dquote]) = Ok (VStr u).
Proof.
  rewrite parse_value_unfold. unfold parse_value_body. cbv zeta.
  replace (strip (dquote :: u ++ [dquote])) with (dquote :: u ++ [dquote])
    by (symmetry; apply strip_by_fixed; reflexivity).
  change (str_eqb (dquote :: u ++ [dquote]) (lit "true")) with false.
  change (str_eqb (dquote :: u ++ [dquote]) (lit "false")) with false.
  change (str_eqb (dquote :: u ++ [dquote]) (lit "null")) with false.
  change (str_eqb (dquote :: u ++ [dquote]) (lit "nil")) with false.
  cbn [orb].
  change (re_match color_re (dquote :: u ++ [dquote]) [])
    with (@None (list str)).
  change (re_match vec2_re (dquote :: u ++ [dquote]) [])
    with (@None (list str)).
  change (startswith [dquote] (dquote :: u ++ [dquote])) with true.
  change (dquote :: u ++ [dquote]) with ((dquote :: u) ++ [dquote]) at 1.
  rewrite endswith_snoc. cbn [andb].
  rewrite slice_1_m1_wrap. reflexivity.
Qed.

Lemma strip_head (c : ascii) (r : str) :
  isspace c = false -> strip (c :: r) = c :: rstrip_by isspace r.
Proof.
  intros Hc. unfold strip, strip_by. cbn [lstrip_by]. rewrite Hc.
  change (c :: r) with ([] ++ c :: r).
  rewrite rstrip_by_app by exact Hc. reflexivity.
Qed.

(** A text that starts with an opening bracket is handed to the array
    parser and a text that starts with an opening brace to the map
    parser, whatever follows: the outcome is an array, respectively a map,
    and never an exception. *)
Theorem parse_value_bracket_dispatch (r : str) :
  parse_value ("["%char :: r) = parse_array (strip ("["%char :: r))
  /\ (exists l, parse_value ("["%char :: r) = Ok (VList l))
  /\ parse_value ("{"%char :: r) = parse_dict (strip ("{"%char :: r))
  /\ (exists d, parse_value ("{"%char :: r) = Ok (VDict d)).
Proof.
  assert (A : parse_value ("["%char :: r)
              = parse_array (strip ("["%char :: r))).
  { rewrite parse_value_unfold. unfold parse_value_body. cbv zeta.
    rewrite (strip_head "[" r eq_refl). reflexivity. }
  assert (D : parse_value ("{"%char :: r)
              = parse_dict (strip ("{"%char :: r))).
  { rewrite parse_value_unfold. unfold parse_value_body. cbv zeta.
    rewrite (strip_head "{" r eq_refl). reflexivity. }
  split; [exact A|]. split; [rewrite A; apply parse_array_returns|].
  split; [exact D|]. rewrite D. apply parse_dict_returns.
Qed.






(* ================================================================== *)
(** * The composite parsers never fall back *)
(* ================================================================== *)

Lemma isspace_plain (c : ascii) : isspace c = true -> plain c = true.
Proof. by_cases c. Qed.

Lemma iscolorchar_plain (c : ascii) : iscolorchar c = true -> plain c = true.
Proof. by_cases c. Qed.

Lemma isvecchar_plain (c : ascii) : isvecchar c = true -> plain c = true.
Proof. by_cases c. Qed.

Lemma forallb_class (p q : ascii -> bool) (a : str) :
  (forall c, p c = true -> q c = true) ->
  forallb p a = true -> forallb q a = true.
Proof.
  intros Hpq H. rewrite forallb_forall in *. auto.
Qed.

Lemma first_special_app (a b : str) :
  first_special (a ++ b)
  = match first_special a with
    | Some x => Some x
    | None => first_special b
    end.
Proof.
  unfold first_special. induction a as [|c a IH]; simpl; [reflexivity|].
  destruct (plain c); [exact IH|reflexivity].
Qed.

Lemma first_special_plain (a : str) :
  forallb plain a = true -> first_special a = None.
Proof.
  intros H. unfold first_special. rewrite lstrip_by_all by exact H.
  reflexivity.
Qed.

Lemma first_special_single (c : ascii) :
  first_special [c] = if plain c then None else Some c.
Proof. unfold first_special. simpl. destruct (plain c); reflexivity. Qed.

Lemma lstrip_by_prefix (p : ascii -> bool) (s : str) :
  exists w, s = w ++ lstrip_by p s /\ forallb p w = true.
Proof.
  induction s as [|c s IH]; [exists []; auto|].
  simpl. destruct (p c) eqn:Hc.
  - destruct IH as (w & E & Hw). exists (c :: w). simpl.
    rewrite Hc, Hw, <- E. auto.
  - exists []. auto.
Qed.

(** Trimming does not move the first meaningful character. *)
Lemma first_special_strip (t : str) :
  first_special (strip t) = first_special t.
Proof.
  unfold strip, strip_by.
  destruct (lstrip_by_prefix isspace t) as (w & E & Hw).
  destruct (rstrip_by_prefix isspace (lstrip_by isspace t)) as (w' & E' & Hw').
  rewrite E at 2. rewrite E' at 2.
  rewrite !first_special_app.
  rewrite (first_special_plain w)
    by (apply forallb_class with isspace; auto using isspace_plain).
  rewrite (first_special_plain w')
    by (apply forallb_class with isspace; auto using isspace_plain).
  destruct (first_special (rstrip_by isspace (lstrip_by isspace t)));
    reflexivity.
Qed.

Lemma re_match_CapPlus_inv p (re : list atom) (u : str) (caps : list str) g :
  re_match (CapPlus p :: re) u caps = Some g ->
  exists a b, u = a ++ b /\ a <> [] /\ forallb p a = true
              /\ re_match re b (a :: caps) = Some g.
Proof.
  cbn [re_match]. intros H.
  destruct (run p u) as [|k] eqn:R; [discriminate H|].
  apply try_down_inv in H. destruct H as (n & Hn & E).
  destruct (firstn_run p n u) as [F L]; [lia|].
  exists (firstn n u), (skipn n u).
  rewrite firstn_skipn. repeat split; auto.
  intros Z. rewrite Z in L. simpl in L. lia.
Qed.

(** A text that matches a pattern of the shape [name( blanks component
    blanks , ...] reaches a comma before any quote, bracket or brace. *)
Lemma literal_first_special (name : str) (p : ascii -> bool)
      (re : list atom) (u : str) g :
  forallb plain name = true ->
  (forall c, p c = true -> plain c = true) ->
  re_match (Lit name :: Star isspace :: CapPlus p :: Star isspace
            :: Lit "," :: re) u [] = Some g ->
  first_special u = Some ","%char.
Proof.
  intros Hn Hp H.
  apply re_match_Lit_inv in H. destruct H as (b1 & -> & H).
  apply re_match_Star_inv in H. destruct H as (w1 & b2 & -> & Hw1 & H).
  apply re_match_CapPlus_inv in H.
  destruct H as (c1 & b3 & -> & _ & Hc1 & H).
  apply re_match_Star_inv in H. destruct H as (w2 & b4 & -> & Hw2 & H).
  apply re_match_Lit_inv in H. destruct H as (b5 & -> & _).
  rewrite !first_special_app.
  rewrite (first_special_plain name) by exact Hn.
  rewrite (first_special_plain w1)
    by (apply forallb_class with isspace; auto using isspace_plain).
  rewrite (first_special_plain c1) by (apply forallb_class with p; auto).
  rewrite (first_special_plain w2)
    by (apply forallb_class with isspace; auto using isspace_plain).
  reflexivity.
Qed.

Lemma color_re_first_special (u : str) g :
  re_match color_re u [] = Some g -> first_special u = Some ","%char.
Proof.
  apply literal_first_special; [reflexivity|exact iscolorchar_plain].
Qed.

Lemma vec2_re_first_special (u : str) g :
  re_match vec2_re u [] = Some g -> first_special u = Some ","%char.
Proof.
  apply literal_first_special; [reflexivity|exact isvecchar_plain].
Qed.

Lemma no_literal_on_safe (t : str) :
  first_special t <> Some ","%char ->
  re_match color_re (strip (strip t)) [] = None
  /\ re_match vec2_re (strip (strip t)) [] = None.
Proof.
  intros H. rewrite strip_idem. split.
  - destruct (re_match color_re (strip t) []) as [g|] eqn:E; [|reflexivity].
    apply color_re_first_special in E. rewrite first_special_strip in E.
    congruence.
  - destruct (re_match vec2_re (strip t) []) as [g|] eqn:E; [|reflexivity].
    apply vec2_re_first_special in E. rewrite first_special_strip in E.
    congruence.
Qed.


Lemma literal_probe_returns_on_safe : returns_on_safe literal_probe.
Proof.
  intros t H. destruct (no_literal_on_safe t H) as [Hc Hv].
  unfold literal_probe. rewrite Hc, Hv. eauto.
Qed.

Lemma safe_reset : safe [] 0%Z false.
Proof. split; [discriminate|auto]. Qed.

Lemma safe_append_plain (cur : str) (d : Z) (i : bool) (c : ascii) :
  safe cur d i -> plain c = true -> safe (cur ++ [c]) d i.
Proof.
  intros [H1 H2] Hc. unfold safe.
  rewrite first_special_app, first_special_single, Hc.
  destruct (first_special cur); auto.
Qed.

Lemma safe_append_special (cur : str) (d d' : Z) (i i' : bool) (c : ascii) :
  safe cur d i -> plain c = false -> c <> ","%char ->
  safe (cur ++ [c]) d' i'.
Proof.
  intros [H1 H2] Hc Hn. unfold safe.
  rewrite first_special_app, first_special_single, Hc.
  destruct (first_special cur); split; congruence.
Qed.

Lemma safe_append_started (cur : str) (d d' : Z) (i i' : bool) (c : ascii) :
  safe cur d i -> first_special cur <> None -> safe (cur ++ [c]) d' i'.
Proof.
  intros [H1 H2] Hs. unfold safe. rewrite first_special_app.
  destruct (first_special cur); split; congruence.
Qed.

Lemma array_step_plain pv (st : ArrayScan.state) (c : ascii) :
  plain c = true ->
  ArrayScan.step pv st c
  = Ok (ArrayScan.mk (ArrayScan.items st) (ArrayScan.depth st)
                     (ArrayScan.current st ++ [c]) (ArrayScan.in_string st)).
Proof.
  intros Hc. destruct (plain_facts c Hc) as (F1 & F2 & F3 & F4).
  unfold ArrayScan.step. rewrite F1, F2, F3, F4. cbn [andb].
  destruct (ArrayScan.in_string st); reflexivity.
Qed.

Lemma array_step_comma pv (st : ArrayScan.state) :
  ArrayScan.step pv st ","
  = if negb (ArrayScan.in_string st) && (ArrayScan.depth st =? 0)%Z
    then v <- pv (strip (ArrayScan.current st)) ;;
         Ok (ArrayScan.mk (ArrayScan.items st ++ [v]) (ArrayScan.depth st)
                          [] false)
    else Ok (ArrayScan.mk (ArrayScan.items st) (ArrayScan.depth st)
                          (ArrayScan.current st ++ [","%char])
                          (ArrayScan.in_string st)).
Proof.
  unfold ArrayScan.step.
  change (Ascii.eqb "," dquote) with false. cbn [andb].
  change (char_in ","%char (lit "[{")) with false.
  change (char_in ","%char (lit "]}")) with false.
  change (Ascii.eqb "," ",") with true. cbn [andb].
  destruct (ArrayScan.in_string st), (ArrayScan.depth st =? 0)%Z; reflexivity.
Qed.

Lemma array_step_other pv (st : ArrayScan.state) (c : ascii) :
  Ascii.eqb c "," = false ->
  exists d' i',
    ArrayScan.step pv st c
    = Ok (ArrayScan.mk (ArrayScan.items st) d' (ArrayScan.current st ++ [c])
                       i').
Proof.
  intros Hc. unfold ArrayScan.step. rewrite Hc. cbn [andb].
  repeat match goal with
         | |- context [if ?b then _ else _] => destruct b
         end; eauto.
Qed.

(** One turn of the array scan keeps the pending fragment safe and does
    not raise. *)
Lemma array_step_safe pv (st : ArrayScan.state) (c : ascii) :
  returns_on_safe pv ->
  safe (ArrayScan.current st) (ArrayScan.depth st) (ArrayScan.in_string st) ->
  exists st',
    ArrayScan.step pv st c = Ok st'
    /\ safe (ArrayScan.current st') (ArrayScan.depth st')
            (ArrayScan.in_string st').
Proof.
  intros Hpv H. destruct (plain c) eqn:Hp.
  - rewrite array_step_plain by exact Hp.
    eexists. split; [reflexivity|]. cbn. apply safe_append_plain; assumption.
  - destruct (Ascii.eqb_spec c ",") as [->|Hn].
    + rewrite array_step_comma.
      destruct (negb (ArrayScan.in_string st) && (ArrayScan.depth st =? 0)%Z)
        eqn:E.
      * destruct (Hpv (ArrayScan.current st)) as [v Ev]; [apply H|].
        rewrite Ev. cbn [bind]. eexists. split; [reflexivity|]. cbn.
        apply andb_true_iff in E. destruct E as [_ E].
        apply Z.eqb_eq in E. rewrite E. apply safe_reset.
      * eexists. split; [reflexivity|]. cbn.
        apply safe_append_started with (ArrayScan.depth st)
                                       (ArrayScan.in_string st);
          [exact H|].
        intros N. destruct H as [_ H]. destruct (H N) as [Hd Hi].
        rewrite Hd, Hi in E. discriminate E.
    + assert (Hc : Ascii.eqb c "," = false)
        by (apply Ascii.eqb_neq; exact Hn).
      destruct (array_step_other pv st c Hc) as (d' & i' & E).
      rewrite E. eexists. split; [reflexivity|]. cbn.
      apply safe_append_special with (ArrayScan.depth st)
                                     (ArrayScan.in_string st); assumption.
Qed.

Lemma array_loop_safe pv (content : str) : forall st,
  returns_on_safe pv ->
  safe (ArrayScan.current st) (ArrayScan.depth st) (ArrayScan.in_string st) ->
  exists st',
    ArrayScan.loop pv content st = Ok st'
    /\ safe (ArrayScan.current st') (ArrayScan.depth st')
            (ArrayScan.in_string st').
Proof.
  induction content as [|c content IH]; intros st Hpv H.
  - exists st. auto.
  - cbn [ArrayScan.loop].
    destruct (array_step_safe pv st c Hpv H) as (st1 & E & H1).
    rewrite E. cbn [bind]. apply IH; assumption.
Qed.

Lemma array_body_safe pv (s : str) :
  returns_on_safe pv -> exists l, ArrayScan.body pv s = Ok l.
Proof.
  intros Hpv. unfold ArrayScan.body.
  destruct (is_empty (strip (slice_1_m1 s))); [eauto|].
  destruct (array_loop_safe pv (strip (slice_1_m1 s)) ArrayScan.init Hpv
                            safe_reset) as (st & E & H).
  rewrite E. cbn [bind].
  destruct (negb (is_empty (strip (ArrayScan.current st)))); [|eauto].
  destruct (Hpv (ArrayScan.current st)) as [v Ev]; [apply H|].
  rewrite Ev. cbn [bind]. eauto.
Qed.


Lemma map_res_each {A B : Type} (f : A -> res B) (l : list A) :
  forall ys, map_res f l = Ok ys ->
             forall x, In x l -> exists y, f x = Ok y.
Proof.
  induction l as [|x0 l IH]; intros ys H x Hx; [destruct Hx|].
  simpl in H. destruct (f x0) as [y0| |] eqn:E0; simpl in H;
    try discriminate H.
  destruct (map_res f l) as [ys'| |]; simpl in H; try discriminate H.
  destruct Hx as [<-|Hx]; [eauto|]. eapply IH; eauto.
Qed.


(** A [Color] or [Vector2] literal written as an array element is never
    recognised: the scan cuts it at its first comma, so no element text
    of any array matches either pattern. *)
Theorem array_elements_never_literals (value_str e : str) :
  In e (elements (strip (slice_1_m1 value_str))) ->
  re_match color_re (strip e) [] = None
  /\ re_match vec2_re (strip e) [] = None.
Proof.
  intros He.
  destruct (array_body_safe literal_probe value_str
                            literal_probe_returns_on_safe) as [l E].
  rewrite array_body_split in E.
  destruct (map_res_each _ _ _ E e He) as [y Ey].
  unfold literal_probe in Ey.
  destruct (re_match color_re (strip e) []); [discriminate Ey|].
  destruct (re_match vec2_re (strip e) []); [discriminate Ey|].
  auto.
Qed.

Lemma array_elements_never_literals_witness :
  re_match color_re (strip "Color(1") [] = None
  /\ re_match vec2_re (strip "Color(1") [] = None.
Proof.
  apply (array_elements_never_literals (lit "[Color(1, 0, 0, 1), 7]")
                                       (lit "Color(1")).
  vm_compute. left. reflexivity.
Defined.











(* ================================================================== *)
(** * Further properties of the section parser *)
(* ================================================================== *)

Lemma re_match_Eol_caps (u : str) (caps : list str) g :
  re_match [Eol] u caps = Some g -> g = rev caps.
Proof.
  cbn [re_match]. destruct u as [|c [|d u]]; try discriminate.
  - intros H. inversion H. reflexivity.
  - destruct (Ascii.eqb c newline); [|discriminate].
    intros H. inversion H. reflexivity.
Qed.

(** What a line that matches the assignment pattern looks like. *)
Lemma assignment_re_inv (line : str) g :
  re_match assignment_re line [] = Some g ->
  exists key w1 w2 value tail,
    line = key ++ w1 ++ lit "=" ++ w2 ++ value ++ tail
    /\ key <> [] /\ forallb isword key = true
    /\ value <> [] /\ g = [key; value].
Proof.
  unfold assignment_re. intros H.
  apply re_match_CapPlus_inv in H.
  destruct H as (key & b1 & -> & Hk & Hw & H).
  apply re_match_Star_inv in H. destruct H as (w1 & b2 & -> & _ & H).
  apply re_match_Lit_inv in H. destruct H as (b3 & -> & H).
  apply re_match_Star_inv in H. destruct H as (w2 & b4 & -> & _ & H).
  apply re_match_CapPlus_inv in H.
  destruct H as (value & tail & -> & Hv & _ & H).
  apply re_match_Eol_caps in H.
  exists key, w1, w2, value, tail. subst g. repeat split; auto.
Qed.

Lemma startswith_app_false (p k r : str) :
  startswith p (k ++ r) = false -> startswith p k = false.
Proof.
  intros H. destruct (startswith p k) eqn:E; [|reflexivity].
  apply startswith_true in E. destruct E as [x ->].
  rewrite <- app_assoc, startswith_app in H. discriminate H.
Qed.

Lemma assignment_of_line_key (line k raw : str) :
  assignment_of_line line = Some (k, raw) ->
  k <> [] /\ forallb isword k = true /\ startswith "script" k = false.
Proof.
  unfold assignment_of_line. cbv zeta.
  destruct (is_empty (strip line)); [discriminate|].
  destruct (startswith (lit "#") (strip line)); [discriminate|].
  destruct (startswith (lit "script") (strip line)) eqn:Es; [discriminate|].
  cbn [orb].
  destruct (re_match assignment_re (strip line) []) as [g|] eqn:E;
    [|discriminate].
  intros H. inversion H; subst. clear H.
  apply assignment_re_inv in E.
  destruct E as (key & w1 & w2 & value & tail & El & Hk & Hw & _ & ->).
  cbn. rewrite El in Es. apply startswith_app_false in Es. auto.
Qed.

Lemma assignments_In (lines : list str) (k raw : str) :
  In (k, raw) (assignments lines) ->
  exists line, In line lines /\ assignment_of_line line = Some (k, raw).
Proof.
  unfold assignments. rewrite in_flat_map. intros (line & Hl & H).
  exists line. split; [exact Hl|].
  destruct (assignment_of_line line) as [a|]; [|destruct H].
  destruct H as [->|[]]. reflexivity.
Qed.

Lemma first_seen_In (ks : list str) : forall before k,
  In k (first_seen before ks) -> In k ks.
Proof.
  induction ks as [|k0 ks IH]; intros before k H; [destruct H|].
  cbn [first_seen] in H. destruct (seen k0 before).
  - right. eapply IH. exact H.
  - destruct H as [->|H]; [left; reflexivity|]. right. eapply IH. exact H.
Qed.

(** Every field name of a document is a non-empty run of word characters
    and does not begin with [script]: a line whose name begins so is left
    out, whatever it assigns. *)
Theorem document_keys_are_words (text : str) (data : dict) (k : str) :
  parse_section text = Ok data -> In k (map fst data) ->
  k <> [] /\ forallb isword k = true /\ startswith "script" k = false.
Proof.
  unfold parse_section. rewrite section_loop_assemble. intros H Hk.
  destruct (assemble_spec _ _ _ H) as [Hkeys _].
  cbn [map app] in Hkeys. rewrite Hkeys in Hk.
  apply first_seen_In in Hk. apply in_map_iff in Hk.
  destruct Hk as ([k' raw] & <- & Hin).
  apply assignments_In in Hin. destruct Hin as (line & _ & Hl).
  cbn [fst]. eapply assignment_of_line_key. exact Hl.
Qed.

Lemma document_keys_are_words_witness :
  lit "hp" <> [] /\ forallb isword (lit "hp") = true
  /\ startswith "script" (lit "hp") = false.
Proof.
  apply (document_keys_are_words two_hp_lines
           [(lit "hp", VInt 2); (lit "name", VStr "Slime")] (lit "hp")).
  - vm_compute. reflexivity.
  - left. reflexivity.
Defined.




Lemma section_loop_app (l1 l2 : list str) : forall data,
  section_loop (l1 ++ l2) data
  = (data' <- section_loop l1 data ;; section_loop l2 data').
Proof.
  induction l1 as [|line l1 IH]; intros data; [reflexivity|].
  cbn [app section_loop].
  destruct (section_step data line); cbn [bind]; auto.
Qed.

Lemma forallb_lstrip (q p : ascii -> bool) (s : str) :
  forallb q s = true -> forallb q (lstrip_by p s) = true.
Proof.
  intros H. destruct (lstrip_by_prefix p s) as (w & E & _).
  rewrite E, forallb_app in H. apply andb_true_iff in H. tauto.
Qed.

Lemma assignment_re_needs_equals (line : str) :
  forallb (fun c => negb (Ascii.eqb c "=")) line = true ->
  re_match assignment_re (strip line) [] = None.
Proof.
  intros H.
  destruct (re_match assignment_re (strip line) []) as [g|] eqn:E;
    [|reflexivity].
  apply assignment_re_inv in E.
  destruct E as (key & w1 & w2 & value & tail & El & _).
  assert (H' : forallb (fun c => negb (Ascii.eqb c "=")) (strip line) = true).
  { unfold strip, strip_by. apply forallb_rstrip, forallb_lstrip. exact H. }
  rewrite El in H'. rewrite !forallb_app in H'.
  apply andb_true_iff in H'. destruct H' as [_ H'].
  apply andb_true_iff in H'. destruct H' as [_ H'].
  apply andb_true_iff in H'. destruct H' as [H' _]. discriminate H'.
Qed.

(** Blank lines, comment lines, lines that start with [script] and lines
    without an equals sign leave the document as it is, wherever they
    stand in the section. *)
Theorem section_ignores_line (before after : list str) (line : str)
        (data : dict) :
  is_empty (strip line) || startswith "#" (strip line)
  || startswith "script" (strip line) = true
  \/ forallb (fun c => negb (Ascii.eqb c "=")) line = true ->
  section_loop (before ++ line :: after) data
  = section_loop (before ++ after) data.
Proof.
  intros H. rewrite !section_loop_app.
  destruct (section_loop before data) as [d| |]; cbn [bind]; try reflexivity.
  cbn [section_loop].
  assert (E : section_step d line = Ok d).
  { unfold section_step. cbv zeta. destruct H as [H|H].
    - rewrite H. reflexivity.
    - rewrite (assignment_re_needs_equals line H).
      destruct (_ || _); reflexivity. }
  rewrite E. reflexivity.
Qed.

Lemma section_ignores_line_witness :
  section_loop ([lit "hp = 1"] ++ lit "# a comment" :: [lit "mp = 2"]) []
  = section_loop ([lit "hp = 1"] ++ [lit "mp = 2"]) []
  /\ section_loop ([lit "hp = 1"] ++ lit "stray text" :: [lit "mp = 2"]) []
     = section_loop ([lit "hp = 1"] ++ [lit "mp = 2"]) [].
Proof.
  split.
  - apply (section_ignores_line [lit "hp = 1"] [lit "mp = 2"]
                                (lit "# a comment") []).
    left. vm_compute. reflexivity.
  - apply (section_ignores_line [lit "hp = 1"] [lit "mp = 2"]
                                (lit "stray text") []).
    right. vm_compute. reflexivity.
Defined.

(* ================================================================== *)
(** * Further properties of the path rewrite *)
(* ================================================================== *)

Lemma replace_fuel_shrinks (old : str) : forall n s,
  length (replace_fuel n old [] s) <= length s.
Proof.
  induction n as [|n IH]; intros s; [simpl; lia|].
  destruct s as [|c s]; [simpl; lia|].
  cbn [replace_fuel]. destruct (startswith old (c :: s)).
  - cbn [app]. etransitivity; [apply IH|]. rewrite length_skipn. lia.
  - simpl. specialize (IH s). lia.
Qed.

(** The rewritten path holds no backslash and is never longer than the
    path given. *)
Theorem convert_path_no_backslash (p : str) :
  forallb (fun c => negb (Ascii.eqb c backslash)) (convert_path p) = true
  /\ length (convert_path p) <= length p.
Proof.
  unfold convert_path. destruct (is_empty p); [split; [reflexivity|simpl; lia]|].
  change (lit "/") with ["/"%char].
  assert (E : forall x, replace [backslash] ["/"%char] x
                        = map (fun c => if Ascii.eqb c backslash
                                        then "/"%char else c) x).
  { intros x. unfold replace. apply replace_fuel_char. lia. }
  rewrite E. split.
  - apply forallb_forall. intros c Hc. apply in_map_iff in Hc.
    destruct Hc as (x & <- & _).
    destruct (Ascii.eqb x backslash) eqn:Ex; [reflexivity|].
    rewrite Ex. reflexivity.
  - rewrite length_map. unfold replace. apply replace_fuel_shrinks.
Qed.

Lemma convert_path_prefix_only_witness :
  convert_path (lit "res://art" ++ backslash :: lit "hero.png")
  = convert_path_claimed (lit "res://art" ++ backslash :: lit "hero.png").
Proof.
  apply (convert_path_prefix_only
           (lit "res://art" ++ backslash :: lit "hero.png")).
  vm_compute. reflexivity.
Defined.

(* ================================================================== *)
(** * The document assembler: one file after another *)
(* ================================================================== *)

Lemma io_bind_ret {A B : Type} (a : A) (k : A -> io B) :
  io_bind (io_ret a) k = k a.
Proof. unfold io_bind, io_ret. cbn. destruct (k a). reflexivity. Qed.

Lemma io_bind_nil {A B : Type} (a : A) (k : A -> io B) :
  io_bind ([], Returns a) k = k a.
Proof. exact (io_bind_ret a k). Qed.

(** What one turn of a converter loop does, case by case. *)
Lemma convert_file_cases tags keys text output file :
  convert_file tags keys text output file
  = match parse_tres_file (snd file) with
    | Ok (Some ((_ :: _) as d)) =>
        match rewrite_paths keys (set_tags tags d) with
        | Returns d' =>
            ([mk_message text (display_name d' (fst file))],
             Returns (output ++ [d']))
        | Raises f => ([], Raises f)
        | Unfinished => ([], Unfinished)
        end
    | Ok _ => ([], Returns output)
    | Raise _ => ([], Raises ValueErr)
    | NoFuel => ([], Unfinished)
    end.
Proof.
  unfold convert_file, call.
  destruct (parse_tres_file (snd file)) as [[[|x d]|]|[]|];
    try reflexivity.
  unfold io_bind. cbn [fst snd app].
  destruct (rewrite_paths keys (set_tags tags (x :: d))); reflexivity.
Qed.

Lemma convert_files_app tags keys text (fs1 fs2 : list (str * str)) :
  forall output,
    convert_files tags keys text (fs1 ++ fs2) output
    = (output' <~ convert_files tags keys text fs1 output ;;
       convert_files tags keys text fs2 output').
Proof.
  induction fs1 as [|f fs1 IH]; intros output.
  - cbn [app convert_files]. rewrite io_bind_ret. reflexivity.
  - cbn [app convert_files].
    destruct (convert_file tags keys text output f) as [l [o|e|]];
      unfold io_bind at 1 3; cbn [fst snd]; try reflexivity.
    rewrite IH.
    destruct (convert_files tags keys text fs1 o) as [l1 [o1|e1|]];
      unfold io_bind; cbn [fst snd]; try reflexivity.
    rewrite app_assoc. reflexivity.
Qed.

Lemma documents_app (fs1 fs2 : list (str * str)) :
  documents (fs1 ++ fs2) = documents fs1 ++ documents fs2.
Proof. unfold documents. apply flat_map_app. Qed.

Lemma documents_cons (f : str * str) (fs : list (str * str)) :
  documents (f :: fs)
  = match parse_tres_file (snd f) with
    | Ok (Some ((_ :: _) as d)) => [d]
    | _ => []
    end ++ documents fs.
Proof. reflexivity. Qed.

Lemma documents_length (files : list (str * str)) :
  length (documents files) <= length files.
Proof.
  induction files as [|f fs IH]; [simpl; lia|].
  rewrite documents_cons, length_app.
  destruct (parse_tres_file (snd f)) as [[[|x d]|]|e|]; simpl; lia.
Qed.

(** A loop that returns has appended, for every document of the
    directory and in the same order, the document its turn of the loop
    makes of it, and has printed one line for each. *)
Lemma convert_files_returns tags keys text (files : list (str * str)) :
  forall output log output',
    convert_files tags keys text files output = (log, Returns output') ->
    exists new,
      output' = output ++ new
      /\ Forall2 (fun d d' => rewrite_paths keys (set_tags tags d)
                              = Returns d')
                 (documents files) new
      /\ length log = length new.
Proof.
  induction files as [|f fs IH]; intros output log output' H.
  - cbn in H. inversion H; subst. exists []. rewrite app_nil_r.
    repeat split; constructor.
  - cbn [convert_files] in H. rewrite convert_file_cases in H.
    rewrite documents_cons.
    destruct (parse_tres_file (snd f)) as [[[|x d]|]|e|].
    + rewrite io_bind_nil in H. cbn [app].
      exact (IH _ _ _ H).
    + destruct (rewrite_paths keys (set_tags tags (x :: d))) as [d'|e|] eqn:Er;
        unfold io_bind in H; cbn [fst snd] in H; try discriminate H.
      destruct (convert_files tags keys text fs (output ++ [d']))
        as [l2 o2] eqn:E2.
      cbn [fst snd] in H. inversion H; subst. clear H.
      destruct (IH _ _ _ E2) as (new & -> & F & L).
      exists (d' :: new). rewrite <- app_assoc. cbn [app].
      repeat split; [constructor; assumption|simpl; congruence].
    + rewrite io_bind_nil in H. cbn [app]. exact (IH _ _ _ H).
    + unfold io_bind in H. cbn [fst snd] in H. discriminate H.
    + unfold io_bind in H. cbn [fst snd] in H. discriminate H.
Qed.

Lemma convert_dir_returns tags keys text dir output log output' :
  convert_dir tags keys text dir output = (log, Returns output') ->
  exists new,
    output' = output ++ new
    /\ Forall2 (fun d d' => rewrite_paths keys (set_tags tags d)
                            = Returns d')
               (documents_of dir) new
    /\ length log = length new.
Proof.
  destruct dir as [files|]; cbn [convert_dir documents_of].
  - apply convert_files_returns.
  - intros H. inversion H; subst. exists []. rewrite app_nil_r.
    repeat split; constructor.
Qed.

(* ================================================================== *)
(** * The document assembler: one document *)
(* ================================================================== *)

Lemma str_eqb_neq (a b : str) : a <> b -> str_eqb a b = false.
Proof.
  intros H. destruct (str_eqb a b) eqn:E; [|reflexivity].
  apply str_eqb_eq in E. congruence.
Qed.

Lemma dict_set_nonempty (k : str) (v : Value) (d : dict) :
  dict_set k v d <> [].
Proof.
  destruct d as [|[k' v'] d]; simpl; [discriminate|].
  destruct (str_eqb k' k); discriminate.
Qed.

Lemma seen_dict_get (k : str) (d : dict) :
  seen k (map fst d) = match dict_get k d with Some _ => true | None => false end.
Proof.
  unfold seen. induction d as [|[k' v'] d IH]; simpl; [reflexivity|].
  destruct (str_eqb k' k); simpl; auto.
Qed.

(** Whatever [convert_path] returns is a string without a backslash. *)
Lemma convert_path_value_clean (v v' : Value) :
  convert_path_value v = Returns v' ->
  exists p, v' = VStr p
            /\ forallb (fun c => negb (Ascii.eqb c backslash)) p = true.
Proof.
  unfold convert_path_value.
  destruct (negb (truthy v)) eqn:T.
  - intros H. inversion H. exists []. auto.
  - destruct v; try discriminate. intros H. inversion H. clear H.
    eexists. split; [reflexivity|].
    destruct s as [|c s]; [discriminate T|].
    apply (convert_path_no_backslash (c :: s)).
Qed.

Lemma rewrite_path_spec (key : str) (d d' : dict) :
  rewrite_path key d = Returns d' ->
  map fst d' = map fst d
  /\ (forall k, k <> key -> dict_get k d' = dict_get k d)
  /\ path_rewritten key d d'.
Proof.
  unfold rewrite_path, path_rewritten.
  destruct (dict_get key d) as [v|] eqn:G.
  - destruct (convert_path_value v) as [v'|e|] eqn:C; cbn [outcome_bind];
      try discriminate.
    intros H. inversion H; subst. clear H. split; [|split].
    + rewrite keys_dict_set, seen_dict_get, G. reflexivity.
    + intros k Hk. apply dict_get_set_other. apply str_eqb_neq. congruence.
    + exists v'. rewrite dict_get_set_same. auto.
  - intros H. inversion H; subst. auto.
Qed.

Lemma rewrite_paths_spec (keys : list str) :
  NoDup keys -> forall d d',
    rewrite_paths keys d = Returns d' ->
    map fst d' = map fst d
    /\ same_fields_outside keys d d'
    /\ forall k, In k keys -> path_rewritten k d d'.
Proof.
  induction 1 as [|k0 ks Hnot Hnd IH]; intros d d' H.
  - cbn in H. inversion H; subst.
    split; [reflexivity|]. split; [intros k _; reflexivity|]. intros k [].
  - cbn [rewrite_paths] in H.
    destruct (rewrite_path k0 d) as [d1|e|] eqn:E1; cbn [outcome_bind] in H;
      try discriminate H.
    destruct (rewrite_path_spec _ _ _ E1) as (K1 & O1 & P1).
    destruct (IH _ _ H) as (K2 & O2 & P2).
    split; [congruence|]. split.
    + intros k Hk. rewrite O2 by (intros N; apply Hk; right; exact N).
      apply O1. intros ->. apply Hk. left. reflexivity.
    + intros k [<-|Hk].
      * unfold path_rewritten in *. rewrite (O2 k0 Hnot).
        exact P1.
      * specialize (P2 k Hk). unfold path_rewritten in *.
        rewrite <- (O1 k) by (intros ->; contradiction). exact P2.
Qed.

Lemma path_rewritten_clean (key : str) (d d' : dict) :
  path_rewritten key d d' -> clean_path key d'.
Proof.
  unfold path_rewritten, clean_path.
  destruct (dict_get key d) as [v|].
  - intros (v' & C & ->). eapply convert_path_value_clean. exact C.
  - intros ->. exact I.
Qed.

(** A document that went through a loop without tag. *)
Lemma rewrite_paths_fields (keys : list str) (d d' : dict) :
  NoDup keys ->
  rewrite_paths keys (set_tags [] d) = Returns d' ->
  rewritten_fields keys d d'.
Proof.
  intros Hnd H. cbn [set_tags fold_left] in H.
  destruct (rewrite_paths_spec keys Hnd _ _ H) as (K & O & P).
  split; [exact K|]. split; [exact O|].
  intros k Hk. split; [auto|]. eapply path_rewritten_clean. auto.
Qed.

(** A document that went through a loop with one tag. *)
Lemma rewrite_paths_tagged (tag : str) (v : Value) (keys : list str)
      (d d' : dict) :
  NoDup keys -> ~ In tag keys ->
  rewrite_paths keys (set_tags [(tag, v)] d) = Returns d' ->
  tagged_fields tag v keys d d'.
Proof.
  intros Hnd Hnot H. cbn [set_tags fold_left fst snd] in H.
  destruct (rewrite_paths_spec keys Hnd _ _ H) as (K & O & P).
  split; [|split; [|split]].
  - rewrite (O tag Hnot). apply dict_get_set_same.
  - rewrite K. apply keys_dict_set.
  - intros k Hk. rewrite O by (intros N; apply Hk; right; exact N).
    apply dict_get_set_other. apply str_eqb_neq.
    intros ->. apply Hk. left. reflexivity.
  - intros k Hk.
    assert (G : dict_get k (dict_set tag v d) = dict_get k d).
    { apply dict_get_set_other. apply str_eqb_neq.
      intros ->. contradiction. }
    specialize (P k Hk). split.
    + unfold path_rewritten in *. rewrite G in P. exact P.
    + eapply path_rewritten_clean. exact P.
Qed.

(* ================================================================== *)
(** * The converters *)
(* ================================================================== *)

Lemma io_bind_returns {A B : Type} (m : io A) (k : A -> io B) log b :
  io_bind m k = (log, Returns b) ->
  exists l1 a l2,
    m = (l1, Returns a) /\ k a = (l2, Returns b) /\ log = l1 ++ l2.
Proof.
  destruct m as [l1 [a|f|]]; unfold io_bind; cbn [fst snd]; intros H;
    try discriminate H.
  destruct (k a) as [l2 o2] eqn:E. cbn [fst snd] in H. inversion H; subst.
  exists l1, a, l2. split; [reflexivity|split; [exact E|reflexivity]].
Qed.

Lemma Forall2_same {A : Type} (l l' : list A) :
  Forall2 (fun d d' => Returns d = Returns d') l l' -> l' = l.
Proof.
  induction 1 as [|x y l l' H _ IH]; [reflexivity|].
  inversion H. subst. reflexivity.
Qed.

Lemma NoDup_monster_keys : NoDup [lit "sprite_path"; lit "portrait_path"].
Proof.
  constructor; [intros [E|[]]; discriminate E|].
  constructor; [intros []|constructor].
Qed.

Lemma NoDup_hero_keys :
  NoDup [lit "sprite_path"; lit "portrait_path"; lit "battle_sprite_path"].
Proof.
  constructor; [intros [E|[E|[]]]; discriminate E|].
  constructor; [intros [E|[]]; discriminate E|].
  constructor; [intros []|constructor].
Qed.

Lemma NoDup_icon_key : NoDup [lit "icon_path"].
Proof. constructor; [intros []|constructor]. Qed.

(** When [convert_monsters] returns, its output holds, for every file
    that parses to a document with a field and in the order of the files,
    that document with [sprite_path] and [portrait_path] rewritten by
    [convert_path] and free of backslashes, and with every other field and
    the order of the fields untouched; one line is printed for each. *)
Theorem convert_monsters_documents (monsters : list (str * str))
        (log : list message) (output : list dict) :
  convert_monsters monsters = (log, Returns output) ->
  Forall2 (rewritten_fields [lit "sprite_path"; lit "portrait_path"])
          (documents monsters) output
  /\ length log = length output
  /\ length output <= length monsters.
Proof.
  intros H. apply convert_files_returns in H.
  destruct H as (new & -> & F & L). cbn [app].
  split; [|split; [exact L|]].
  - eapply Forall2_impl; [|exact F].
    intros d d' R. apply rewrite_paths_fields;
      [exact NoDup_monster_keys|exact R].
  - rewrite <- (Forall2_length F). apply documents_length.
Qed.

Lemma convert_monsters_documents_witness :
  Forall2 (rewritten_fields [lit "sprite_path"; lit "portrait_path"])
          (documents [slime_file; plain_file])
          (returned (convert_monsters [slime_file; plain_file]))
  /\ length (fst (convert_monsters [slime_file; plain_file]))
     = length (returned (convert_monsters [slime_file; plain_file]))
  /\ length (returned (convert_monsters [slime_file; plain_file])) <= 2.
Proof.
  apply (convert_monsters_documents [slime_file; plain_file]).
  vm_compute. reflexivity.
Defined.

(** A file that holds no [[resource]] marker, or whose section assigns
    nothing, adds neither a document nor a line, wherever it stands among
    the files of a directory. *)
Theorem converters_skip_empty_files
        (tags : list (str * Value)) (keys : list str) (text : str)
        (before after : list (str * str)) (file : str * str)
        (output : list dict) :
  ~ contains marker (snd file) \/ parse_tres_file (snd file) = Ok (Some []) ->
  convert_files tags keys text (before ++ file :: after) output
  = convert_files tags keys text (before ++ after) output
  /\ convert_monsters (before ++ file :: after)
     = convert_monsters (before ++ after).
Proof.
  intros H.
  assert (E : forall tags keys text out,
             convert_file tags keys text out file = ([], Returns out)).
  { intros. rewrite convert_file_cases. destruct H as [H|H].
    - apply re_search_resource_none in H. unfold parse_tres_file.
      rewrite H. reflexivity.
    - rewrite H. reflexivity. }
  assert (G : forall tags keys text out,
             convert_files tags keys text (before ++ file :: after) out
             = convert_files tags keys text (before ++ after) out).
  { intros. rewrite !convert_files_app. cbn [convert_files].
    destruct (convert_files tags0 keys0 text0 before out) as [l [o|e|]];
      unfold io_bind at 1 3; cbn [fst snd]; try reflexivity.
    rewrite E, io_bind_nil. reflexivity. }
  split; [apply G|apply G].
Qed.

Lemma converters_skip_empty_files_witness :
  convert_monsters ([slime_file] ++ plain_file :: [slime_file])
  = convert_monsters ([slime_file] ++ [slime_file]).
Proof.
  refine (proj2 (converters_skip_empty_files [] [] [] [slime_file]
                   [slime_file] plain_file [] _)).
  left. apply (proj1 (re_search_resource_none (snd plain_file))).
  vm_compute. reflexivity.
Defined.

(** One file that makes the parser raise ends the whole conversion of its
    directory: the documents of the files before it are lost with it, the
    files after it are not read, and only the lines already printed
    remain. *)
Theorem converters_abort_on_bad_file
        (tags : list (str * Value)) (keys : list str) (text : str)
        (before after : list (str * str)) (file : str * str)
        (output output' : list dict) (log : list message) :
  convert_files tags keys text before output = (log, Returns output') ->
  parse_tres_file (snd file) = Raise ValueError ->
  convert_files tags keys text (before ++ file :: after) output
  = (log, Raises ValueErr).
Proof.
  intros Hb Hf. rewrite convert_files_app, Hb.
  unfold io_bind at 1. cbn [fst snd convert_files].
  rewrite convert_file_cases, Hf.
  unfold io_bind. cbn [fst snd]. rewrite app_nil_r. reflexivity.
Qed.

Lemma converters_abort_on_bad_file_witness :
  convert_monsters ([slime_file] ++ bad_tint_file :: [slime_file])
  = (fst (convert_monsters [slime_file]), Raises ValueErr).
Proof.
  apply (converters_abort_on_bad_file
           [] [lit "sprite_path"; lit "portrait_path"]
           "  Converted monster: " [slime_file] [slime_file] bad_tint_file
           [] (returned (convert_monsters [slime_file]))).
  - vm_compute. reflexivity.
  - vm_compute. reflexivity.
Defined.

Lemma rewrite_path_raises (key : str) (d : dict) (v : Value) :
  dict_get key d = Some v -> truthy v = true ->
  (forall s, v <> VStr s) ->
  rewrite_path key d = Raises AttributeErr.
Proof.
  intros G T N. unfold rewrite_path, convert_path_value. rewrite G, T.
  cbn [negb]. destruct v; try reflexivity. exfalso. eapply N. reflexivity.
Qed.

(** A [sprite_path] that is neither a string nor a falsy object (a
    non-zero number, [true], a non-empty array or map) makes
    [convert_monsters] raise [AttributeError], with the same loss. *)
Theorem convert_monsters_abort_on_path_object
        (before after : list (str * str)) (file : str * str)
        (output : list dict) (log : list message)
        (x : str * Value) (d : dict) (v : Value) :
  convert_monsters before = (log, Returns output) ->
  parse_tres_file (snd file) = Ok (Some (x :: d)) ->
  dict_get "sprite_path" (x :: d) = Some v ->
  truthy v = true -> (forall s, v <> VStr s) ->
  convert_monsters (before ++ file :: after) = (log, Raises AttributeErr).
Proof.
  intros Hb Hf G T N. unfold convert_monsters in *.
  rewrite convert_files_app, Hb.
  unfold io_bind at 1. cbn [fst snd convert_files].
  rewrite convert_file_cases, Hf.
  cbn [set_tags fold_left rewrite_paths].
  rewrite (rewrite_path_raises _ _ _ G T N). cbn [outcome_bind].
  unfold io_bind. cbn [fst snd]. rewrite app_nil_r. reflexivity.
Qed.

Lemma convert_monsters_abort_on_path_object_witness :
  convert_monsters ([slime_file] ++ number_path_file :: [slime_file])
  = (fst (convert_monsters [slime_file]), Raises AttributeErr).
Proof.
  apply (convert_monsters_abort_on_path_object
           [slime_file] [slime_file] number_path_file
           (returned (convert_monsters [slime_file]))
           (fst (convert_monsters [slime_file]))
           (lit "sprite_path", VInt 5) [] (VInt 5)).
  - vm_compute. reflexivity.
  - vm_compute. reflexivity.
  - vm_compute. reflexivity.
  - reflexivity.
  - intros s. discriminate.
Defined.

(** When [convert_skills] returns, its output is the documents of the
    skills directory followed by those of its [monsters] subdirectory (by
    none when that does not exist), all with [icon_path] rewritten; the
    latter carry [is_monster_skill = True], in the place of a field of
    that name if the file has one and last otherwise. *)
Theorem convert_skills_documents (skills : list (str * str))
        (monster_skills : option (list (str * str)))
        (log : list message) (output : list dict) :
  convert_skills skills monster_skills = (log, Returns output) ->
  exists main extra,
    output = main ++ extra
    /\ Forall2 (rewritten_fields [lit "icon_path"]) (documents skills) main
    /\ Forall2 (tagged_fields "is_monster_skill" (VBool true)
                              [lit "icon_path"])
               (documents_of monster_skills) extra
    /\ length log = length output.
Proof.
  intros H. unfold convert_skills in H.
  apply io_bind_returns in H. destruct H as (l1 & out1 & l2 & H1 & H2 & ->).
  apply convert_files_returns in H1. destruct H1 as (main & -> & F1 & L1).
  apply convert_dir_returns in H2. destruct H2 as (extra & -> & F2 & L2).
  exists main, extra. cbn [app]. split; [reflexivity|]. split; [|split].
  - eapply Forall2_impl; [|exact F1].
    intros d d' R. apply rewrite_paths_fields; [exact NoDup_icon_key|exact R].
  - eapply Forall2_impl; [|exact F2].
    intros d d' R. apply rewrite_paths_tagged;
      [exact NoDup_icon_key|intros [E|[]]; discriminate E|exact R].
  - rewrite !length_app. congruence.
Qed.

Lemma convert_skills_documents_witness :
  exists main extra,
    returned (convert_skills [slime_file] (Some [slime_file; plain_file]))
    = main ++ extra
    /\ Forall2 (rewritten_fields [lit "icon_path"]) (documents [slime_file])
               main
    /\ Forall2 (tagged_fields "is_monster_skill" (VBool true)
                              [lit "icon_path"])
               (documents_of (Some [slime_file; plain_file])) extra
    /\ length (fst (convert_skills [slime_file]
                                   (Some [slime_file; plain_file])))
       = length (returned (convert_skills [slime_file]
                                          (Some [slime_file; plain_file]))).
Proof.
  apply (convert_skills_documents [slime_file]
                                  (Some [slime_file; plain_file])).
  vm_compute. reflexivity.
Defined.

(** When [convert_heroes] returns, its output is the documents of the
    heroes directory with their three path fields rewritten, followed by
    the documents of the hero skills directory exactly as parsed. *)
Theorem convert_heroes_documents (heroes : list (str * str))
        (hero_skills : option (list (str * str)))
        (log : list message) (output : list dict) :
  convert_heroes heroes hero_skills = (log, Returns output) ->
  exists main,
    output = main ++ documents_of hero_skills
    /\ Forall2 (rewritten_fields [lit "sprite_path"; lit "portrait_path";
                                  lit "battle_sprite_path"])
               (documents heroes) main
    /\ length log = length output.
Proof.
  intros H. unfold convert_heroes in H.
  apply io_bind_returns in H. destruct H as (l1 & out1 & l2 & H1 & H2 & ->).
  apply convert_files_returns in H1. destruct H1 as (main & -> & F1 & L1).
  apply convert_dir_returns in H2. destruct H2 as (extra & -> & F2 & L2).
  cbn [rewrite_paths set_tags fold_left] in F2.
  apply Forall2_same in F2. subst extra.
  exists main. cbn [app]. split; [reflexivity|]. split.
  - eapply Forall2_impl; [|exact F1].
    intros d d' R. apply rewrite_paths_fields; [exact NoDup_hero_keys|exact R].
  - rewrite !length_app. congruence.
Qed.

Lemma convert_heroes_documents_witness :
  exists main,
    returned (convert_heroes [slime_file] (Some [slime_file]))
    = main ++ documents_of (Some [slime_file])
    /\ Forall2 (rewritten_fields [lit "sprite_path"; lit "portrait_path";
                                  lit "battle_sprite_path"])
               (documents [slime_file]) main
    /\ length (fst (convert_heroes [slime_file] (Some [slime_file])))
       = length (returned (convert_heroes [slime_file] (Some [slime_file]))).
Proof.
  apply (convert_heroes_documents [slime_file] (Some [slime_file])).
  vm_compute. reflexivity.
Defined.

(** When [convert_items] returns, its output is the documents of the
    consumables directory followed by those of the equipment directory
    (none for a directory that does not exist), each with [icon_path]
    rewritten and with [item_category] set to the name of its directory,
    whatever the file says of that field. *)
Theorem convert_items_documents
        (consumables equipment : option (list (str * str)))
        (log : list message) (output : list dict) :
  convert_items consumables equipment = (log, Returns output) ->
  exists first second,
    output = first ++ second
    /\ Forall2 (tagged_fields "item_category" (VStr "consumables")
                              [lit "icon_path"])
               (documents_of consumables) first
    /\ Forall2 (tagged_fields "item_category" (VStr "equipment")
                              [lit "icon_path"])
               (documents_of equipment) second
    /\ length log = length output.
Proof.
  intros H. unfold convert_items in H. cbn [items_loop] in H.
  apply io_bind_returns in H. destruct H as (l1 & out1 & l2 & H1 & H2 & ->).
  apply io_bind_returns in H2. destruct H2 as (l3 & out2 & l4 & H2 & H3 & ->).
  inversion H3; subst. clear H3.
  apply convert_dir_returns in H1. destruct H1 as (first & -> & F1 & L1).
  apply convert_dir_returns in H2. destruct H2 as (second & -> & F2 & L2).
  exists first, second. cbn [app]. split; [reflexivity|]. split; [|split].
  - eapply Forall2_impl; [|exact F1].
    intros d d' R. apply rewrite_paths_tagged;
      [exact NoDup_icon_key|intros [E|[]]; discriminate E|exact R].
  - eapply Forall2_impl; [|exact F2].
    intros d d' R. apply rewrite_paths_tagged;
      [exact NoDup_icon_key|intros [E|[]]; discriminate E|exact R].
  - rewrite !length_app. cbn [length]. lia.
Qed.

Lemma convert_items_documents_witness :
  exists first second,
    returned (convert_items (Some [slime_file]) None) = first ++ second
    /\ Forall2 (tagged_fields "item_category" (VStr "consumables")
                              [lit "icon_path"])
               (documents_of (Some [slime_file])) first
    /\ Forall2 (tagged_fields "item_category" (VStr "equipment")
                              [lit "icon_path"])
               (documents_of None) second
    /\ length (fst (convert_items (Some [slime_file]) None))
       = length (returned (convert_items (Some [slime_file]) None)).
Proof.
  apply (convert_items_documents (Some [slime_file]) None).
  vm_compute. reflexivity.
Defined.

(* ================================================================== *)
(** * Arrays of quoted strings *)
(* ================================================================== *)

Lemma array_step_in_string pv (st : ArrayScan.state) (c : ascii) :
  Ascii.eqb c dquote = false -> ArrayScan.in_string st = true ->
  ArrayScan.step pv st c
  = Ok (ArrayScan.mk (ArrayScan.items st) (ArrayScan.depth st)
                     (ArrayScan.current st ++ [c]) true).
Proof.
  intros Hc Hi. unfold ArrayScan.step. rewrite Hc, Hi. reflexivity.
Qed.

Lemma array_loop_in_string pv (u : str) : forall items d cur rest,
  forallb (fun c => negb (Ascii.eqb c dquote)) u = true ->
  ArrayScan.loop pv (u ++ rest) (ArrayScan.mk items d cur true)
  = ArrayScan.loop pv rest (ArrayScan.mk items d (cur ++ u) true).
Proof.
  induction u as [|c u IH]; intros items d cur rest Hu.
  - rewrite app_nil_r. reflexivity.
  - cbn [forallb] in Hu. apply andb_true_iff in Hu. destruct Hu as [Hc Hu].
    apply negb_true_iff in Hc. cbn [app ArrayScan.loop].
    rewrite array_step_in_string by (auto). cbn [bind ArrayScan.items
      ArrayScan.depth ArrayScan.current].
    rewrite IH by exact Hu. rewrite <- app_assoc. reflexivity.
Qed.

Lemma last_char_inside_key (u : str) :
  forallb inside_key u = true ->
  match last_char (dquote :: u) with
  | Some c => Ascii.eqb c backslash = false
  | None => False
  end.
Proof.
  intros H.
  assert (H' : forallb (fun c => negb (Ascii.eqb c backslash)) (dquote :: u)
               = true).
  { cbn [forallb]. apply andb_true_iff. split; [reflexivity|].
    eapply forallb_class; [|exact H].
    intros c Hc. unfold inside_key in Hc. apply andb_true_iff in Hc. tauto. }
  destruct (last_char_class _ dquote u H') as (c & -> & Hc).
  apply negb_true_iff in Hc. exact Hc.
Qed.

(** The scan of a quoted text outside a string at depth 0: the text is
    taken whole, whatever it holds. *)
Lemma array_loop_quoted pv (items : list Value) (u rest : str) :
  forallb inside_key u = true ->
  ArrayScan.loop pv (quoted u ++ rest) (ArrayScan.mk items 0%Z [] false)
  = ArrayScan.loop pv rest (ArrayScan.mk items 0%Z (quoted u) false).
Proof.
  intros Hu. destruct (inside_key_notquote u Hu) as [Hq _].
  unfold quoted. cbn [app ArrayScan.loop].
  change (ArrayScan.step pv (ArrayScan.mk items 0%Z [] false) dquote)
    with (Ok (ArrayScan.mk items 0%Z [dquote] true)).
  cbn [bind]. rewrite <- app_assoc.
  rewrite array_loop_in_string by exact Hq.
  cbn [app ArrayScan.loop]. unfold ArrayScan.step.
  cbn [ArrayScan.items ArrayScan.depth ArrayScan.current ArrayScan.in_string].
  pose proof (last_char_inside_key u Hu) as L.
  destruct (last_char (dquote :: u)) as [c|]; [|destruct L].
  rewrite L. change (Ascii.eqb dquote dquote) with true.
  rewrite orb_true_r. cbn [andb negb].
  change (char_in dquote (lit "[{")) with false.
  change (char_in dquote (lit "]}")) with false.
  change (Ascii.eqb dquote ",") with false.
  cbn [andb bind]. reflexivity.
Qed.

Lemma strip_quoted (u : str) : strip (quoted u) = quoted u.
Proof. apply strip_by_fixed; reflexivity. Qed.

Lemma array_loop_strings (us : list str) : forall items,
  us <> [] -> Forall (fun u => forallb inside_key u = true) us ->
  ArrayScan.loop parse_value (join "," (map quoted us))
                 (ArrayScan.mk items 0%Z [] false)
  = Ok (ArrayScan.mk (items ++ map VStr (removelast us)) 0%Z
                     (quoted (last us [])) false).
Proof.
  induction us as [|u us IH]; intros items Hne H; [congruence|].
  inversion H as [|? ? Hu Hus]; subst.
  destruct us as [|u2 us].
  - cbn [map join removelast last]. rewrite <- (app_nil_r (quoted u)).
    rewrite array_loop_quoted by exact Hu.
    cbn [ArrayScan.loop]. rewrite !app_nil_r. reflexivity.
  - change (join (lit ",") (map quoted (u :: u2 :: us)))
      with (quoted u ++ ","%char :: join (lit ",") (map quoted (u2 :: us))).
    rewrite array_loop_quoted by exact Hu.
    cbn [ArrayScan.loop]. rewrite array_step_comma.
    cbn [ArrayScan.items ArrayScan.depth ArrayScan.current
         ArrayScan.in_string negb andb Z.eqb].
    rewrite strip_quoted. unfold quoted at 1. rewrite parse_value_quoted.
    cbn [bind]. rewrite IH by (auto; discriminate).
    change (removelast (u :: u2 :: us)) with (u :: removelast (u2 :: us)).
    change (last (u :: u2 :: us) []) with (last (u2 :: us) []).
    cbn [map]. rewrite <- app_assoc. reflexivity.
Qed.

Lemma join_quoted_ends (us : list str) :
  us <> [] ->
  exists x, join "," (map quoted us) = dquote :: x ++ [dquote].
Proof.
  induction us as [|u us IH]; intros Hne; [congruence|].
  destruct us as [|u2 us].
  - exists u. reflexivity.
  - destruct IH as [x E]; [discriminate|].
    change (join (lit ",") (map quoted (u :: u2 :: us)))
      with (quoted u ++ ","%char :: join (lit ",") (map quoted (u2 :: us))).
    rewrite E. unfold quoted.
    exists (u ++ dquote :: ","%char :: dquote :: x).
    cbn [app]. rewrite <- !app_assoc. reflexivity.
Qed.

(** An array literal made of quoted texts gives those texts back, in
    order, as strings, whatever commas, colons, brackets or blanks they
    hold, as long as they hold no double quote and no backslash. *)
Theorem parse_array_of_strings (us : list str) :
  Forall (fun u => forallb inside_key u = true) us ->
  parse_array ("["%char :: join "," (map quoted us) ++ lit "]")
  = Ok (VList (map VStr us)).
Proof.
  intros H. unfold parse_array, parse_array_with, ArrayScan.body.
  change (lit "]") with ["]"%char]. rewrite slice_1_m1_wrap.
  destruct us as [|u us]; [reflexivity|].
  destruct (join_quoted_ends (u :: us)) as [x E]; [discriminate|].
  assert (S : strip (join "," (map quoted (u :: us)))
              = join "," (map quoted (u :: us))).
  { rewrite E. apply strip_by_fixed; reflexivity. }
  rewrite S. rewrite E at 1. cbn [is_empty].
  fold ArrayScan.init.
  unfold ArrayScan.init.
  rewrite array_loop_strings by (auto; discriminate).
  cbn [bind ArrayScan.current ArrayScan.items app].
  rewrite strip_quoted. unfold quoted at 1. cbn [is_empty negb].
  unfold quoted. rewrite parse_value_quoted. cbn [bind try_except].
  change [VStr (last (u :: us) [])] with (map VStr [last (u :: us) []]).
  rewrite <- map_app.
  rewrite <- app_removelast_last by discriminate. reflexivity.
Qed.

Lemma parse_array_of_strings_witness :
  parse_array ("["%char :: join "," (map quoted [lit "a,b"; lit "[x]: y"])
               ++ lit "]")
  = Ok (VList [VStr "a,b"; VStr "[x]: y"]).
Proof.
  apply (parse_array_of_strings [lit "a,b"; lit "[x]: y"]).
  repeat (apply Forall_cons; [vm_compute; reflexivity|]). apply Forall_nil.
Defined.
